(** * liberator: the PVC claim-reference cleanup controller

    A shallow embedding of [main.go]: the finalizer helpers, the event
    filter built in [SetupWithManager], and the reconciler
    ([Reconcile], [handlePVCDeletion], the [removeFinalizer] method),
    run against a model of the object store client that records every
    call it receives. *)

From Stdlib Require Import ZArith.
From stdpp Require Import gmap strings list fin_maps.

Open Scope string_scope.

(** ** Kubernetes objects (the fields of [metav1] and [corev1] in use) *)

(** [metav1.Time] as an offset from Go's zero instant. *)
Definition Time := Z.

Record ObjectMeta := {
  Name : string;
  Namespace : string;
  UID : string;
  ResourceVersion : string;
  Labels : list (string * string);
  Finalizers : list string;
  DeletionTimestamp : option Time
}.

Record ObjectReference := {
  RefKind : string;
  RefNamespace : string;
  RefName : string;
  RefUID : string
}.

Record PersistentVolumeClaimSpec := {
  VolumeName : string;
  ClaimStorageClassName : string;
  ClaimRequest : Z
}.

Record PersistentVolumeClaim := {
  ClaimMeta : ObjectMeta;
  ClaimSpec : PersistentVolumeClaimSpec;
  ClaimPhase : string
}.

Record PersistentVolumeSpec := {
  ClaimRef : option ObjectReference;
  Capacity : Z;
  StorageClassName : string;
  PersistentVolumeReclaimPolicy : string
}.

Record PersistentVolume := {
  VolumeMeta : ObjectMeta;
  VolumeSpec : PersistentVolumeSpec;
  VolumePhase : string
}.

(** [client.Object]: the kinds a notification may carry. *)
Inductive Object :=
| ObjClaim (pvc : PersistentVolumeClaim)
| ObjVolume (pv : PersistentVolume)
| ObjOther (meta : ObjectMeta).

Definition GetObjectMeta (o : Object) : ObjectMeta :=
  match o with
  | ObjClaim pvc => ClaimMeta pvc
  | ObjVolume pv => VolumeMeta pv
  | ObjOther m => m
  end.

Definition GetFinalizers (o : Object) : list string :=
  Finalizers (GetObjectMeta o).

Definition GetDeletionTimestamp (o : Object) : option Time :=
  DeletionTimestamp (GetObjectMeta o).

(** [IsZero] on a [metav1.Time] pointer: nil or the zero instant. *)
Definition IsZero (t : option Time) : bool :=
  match t with
  | None => true
  | Some z => (z =? 0)%Z
  end.

(** ** Finalizer helpers *)

Definition PVClaimRefCleanupFinalizer : string :=
  "liberator.io/pv-claim-ref-cleanup".

(** [slices.Contains]: the first index holding [v], if any. *)
Fixpoint slices_Contains (s : list string) (v : string) : bool :=
  match s with
  | [] => false
  | x :: rest => if String.eqb v x then true else slices_Contains rest v
  end.

Definition hasFinalizer (finalizers : list string) : bool :=
  slices_Contains finalizers PVClaimRefCleanupFinalizer.

(** The loop of the [removeFinalizer] helper: [result] starts empty and
    every element other than the token is appended to it. *)
Definition removeFinalizer (finalizers : list string) : list string :=
  fold_left
    (fun (result : list string) (finalizer : string) =>
       if negb (String.eqb finalizer PVClaimRefCleanupFinalizer)
       then (result ++ [finalizer])%list
       else result)
    finalizers [].

(** ** The event filter of [SetupWithManager] *)

(** [predicate.Funcs]: one decision per notification kind. *)
Record Predicate := {
  CreateFunc : Object -> bool;
  DeleteFunc : Object -> bool;
  UpdateFunc : Object -> Object -> bool;
  GenericFunc : Object -> bool
}.

(** [predicate.NewPredicateFuncs]: the filter sees the object of a
    create, delete or generic event and the new object of an update. *)
Definition NewPredicateFuncs (filter : Object -> bool) : Predicate := {|
  CreateFunc := fun o => filter o;
  DeleteFunc := fun o => filter o;
  UpdateFunc := fun _ objectNew => filter objectNew;
  GenericFunc := fun o => filter o
|}.

(** [predicate.And] of two predicates. *)
Definition predicate_And (p q : Predicate) : Predicate := {|
  CreateFunc := fun o => CreateFunc p o && CreateFunc q o;
  DeleteFunc := fun o => DeleteFunc p o && DeleteFunc q o;
  UpdateFunc := fun o n => UpdateFunc p o n && UpdateFunc q o n;
  GenericFunc := fun o => GenericFunc p o && GenericFunc q o
|}.

Definition hasBoundPVPredicate : Predicate :=
  NewPredicateFuncs (fun obj =>
    match obj with
    | ObjClaim pvc => negb (String.eqb (VolumeName (ClaimSpec pvc)) "")
    | _ => false
    end).

Definition predicates : Predicate := {|
  CreateFunc := fun o => hasFinalizer (GetFinalizers o);
  DeleteFunc := fun _ => false;
  UpdateFunc := fun objectOld objectNew =>
    let oldObject := hasFinalizer (GetFinalizers objectOld) in
    let newObject := hasFinalizer (GetFinalizers objectNew) in
    let deletionStarted := negb (IsZero (GetDeletionTimestamp objectNew)) in
    negb (Bool.eqb oldObject newObject) || deletionStarted;
  GenericFunc := fun o => hasFinalizer (GetFinalizers o)
|}.

Definition combined : Predicate :=
  predicate_And hasBoundPVPredicate predicates.

(** A change notification, as the controller host delivers it. *)
Inductive Notification :=
| CreateEvent (object : Object)
| UpdateEvent (objectOld objectNew : Object)
| DeleteEvent (object : Object)
| GenericEvent (object : Object).

Definition admits (p : Predicate) (n : Notification) : bool :=
  match n with
  | CreateEvent o => CreateFunc p o
  | UpdateEvent o n => UpdateFunc p o n
  | DeleteEvent o => DeleteFunc p o
  | GenericEvent o => GenericFunc p o
  end.

(** The object a notification is about: the new one for an update. *)
Definition subject (n : Notification) : Object :=
  match n with
  | CreateEvent o | DeleteEvent o | GenericEvent o => o
  | UpdateEvent _ n => n
  end.

(** The bound-volume identity of an object, when it is a claim. *)
Definition boundVolume (o : Object) : option string :=
  match o with
  | ObjClaim pvc => Some (VolumeName (ClaimSpec pvc))
  | _ => None
  end.

(** ** The object store client

    [client.Client] is an external collaborator.  The model keeps the
    claims by (namespace, name) and the volumes by name, answers a read
    or a write of a missing object with NotFound, lets a schedule of
    injected faults fail any call with a conflict or a transient error
    (one entry of the schedule is consumed per call, and an exhausted
    schedule injects nothing), and records every call with its argument
    and its outcome.  An accepted write replaces the stored object; the
    store does not collect a claim whose last finalizer is removed. *)

Inductive Err := ErrNotFound | ErrConflict | ErrTransient.

(** [client.IgnoreNotFound]. *)
Definition IgnoreNotFound (err : option Err) : option Err :=
  match err with
  | Some ErrNotFound => None
  | _ => err
  end.

Inductive Fault := FaultConflict | FaultTransient.

Definition fault_err (f : Fault) : Err :=
  match f with
  | FaultConflict => ErrConflict
  | FaultTransient => ErrTransient
  end.

Record Cluster := {
  claims : gmap (string * string) PersistentVolumeClaim;
  volumes : gmap string PersistentVolume
}.

Record World := {
  cluster : Cluster;
  faults : list (option Fault)
}.

Inductive Call :=
| GetClaim (key : string * string) (r : PersistentVolumeClaim + Err)
| GetVolume (name : string) (r : PersistentVolume + Err)
| UpdateVolume (pv : PersistentVolume) (r : option Err)
| UpdateClaim (pvc : PersistentVolumeClaim) (r : option Err).

(** A computation against the store: its value, the world it leaves and
    the calls it made, in order. *)
Definition M (A : Type) : Type := World -> A * World * list Call.

Definition ret {A} (a : A) : M A := fun w => (a, w, []).

Definition bind {A B} (m : M A) (k : A -> M B) : M B := fun w =>
  let '(a, w1, c1) := m w in
  let '(b, w2, c2) := k a w1 in
  (b, w2, (c1 ++ c2)%list).

Notation "x <- m ;; k" := (bind m (fun x => k))
  (at level 100, m at next level, right associativity).

Definition next_fault (fs : list (option Fault))
  : option Fault * list (option Fault) :=
  match fs with
  | [] => (None, [])
  | f :: rest => (f, rest)
  end.

Definition claimKey (pvc : PersistentVolumeClaim) : string * string :=
  (Namespace (ClaimMeta pvc), Name (ClaimMeta pvc)).

(** [r.Get(ctx, key, &pvc)]. *)
Definition GetPVC (key : string * string) : M (PersistentVolumeClaim + Err) :=
  fun w =>
    let '(f, rest) := next_fault (faults w) in
    let r := match f with
             | Some ft => inr (fault_err ft)
             | None => match claims (cluster w) !! key with
                       | Some pvc => inl pvc
                       | None => inr ErrNotFound
                       end
             end in
    (r, {| cluster := cluster w; faults := rest |}, [GetClaim key r]).

(** [r.Get(ctx, client.ObjectKey{Name: name}, &pv)]. *)
Definition GetPV (name : string) : M (PersistentVolume + Err) :=
  fun w =>
    let '(f, rest) := next_fault (faults w) in
    let r := match f with
             | Some ft => inr (fault_err ft)
             | None => match volumes (cluster w) !! name with
                       | Some pv => inl pv
                       | None => inr ErrNotFound
                       end
             end in
    (r, {| cluster := cluster w; faults := rest |}, [GetVolume name r]).

Definition storeVolume (pv : PersistentVolume) (c : Cluster) : Cluster :=
  {| claims := claims c;
     volumes := <[Name (VolumeMeta pv) := pv]> (volumes c) |}.

Definition storeClaim (pvc : PersistentVolumeClaim) (c : Cluster) : Cluster :=
  {| claims := <[claimKey pvc := pvc]> (claims c);
     volumes := volumes c |}.

(** [r.Update(ctx, pv)]. *)
Definition UpdatePV (pv : PersistentVolume) : M (option Err) :=
  fun w =>
    let '(f, rest) := next_fault (faults w) in
    let r := match f with
             | Some ft => Some (fault_err ft)
             | None => match volumes (cluster w) !! Name (VolumeMeta pv) with
                       | Some _ => None
                       | None => Some ErrNotFound
                       end
             end in
    let c := match r with
             | None => storeVolume pv (cluster w)
             | Some _ => cluster w
             end in
    (r, {| cluster := c; faults := rest |}, [UpdateVolume pv r]).

(** [r.Update(ctx, pvc)]. *)
Definition UpdatePVC (pvc : PersistentVolumeClaim) : M (option Err) :=
  fun w =>
    let '(f, rest) := next_fault (faults w) in
    let r := match f with
             | Some ft => Some (fault_err ft)
             | None => match claims (cluster w) !! claimKey pvc with
                       | Some _ => None
                       | None => Some ErrNotFound
                       end
             end in
    let c := match r with
             | None => storeClaim pvc (cluster w)
             | Some _ => cluster w
             end in
    (r, {| cluster := c; faults := rest |}, [UpdateClaim pvc r]).

(** ** The reconciler *)

Record Result := { Requeue : bool; RequeueAfter : Z }.

(** [ctrl.Result{}]. *)
Definition emptyResult : Result := {| Requeue := false; RequeueAfter := 0 |}.

(** The generated deep copies rebuild the object field by field. *)
Definition DeepCopyMeta (m : ObjectMeta) : ObjectMeta :=
  {| Name := Name m; Namespace := Namespace m; UID := UID m;
     ResourceVersion := ResourceVersion m; Labels := Labels m;
     Finalizers := Finalizers m; DeletionTimestamp := DeletionTimestamp m |}.

Definition DeepCopyPV (pv : PersistentVolume) : PersistentVolume :=
  {| VolumeMeta := DeepCopyMeta (VolumeMeta pv);
     VolumeSpec :=
       {| ClaimRef :=
            match ClaimRef (VolumeSpec pv) with
            | Some r => Some {| RefKind := RefKind r;
                                RefNamespace := RefNamespace r;
                                RefName := RefName r; RefUID := RefUID r |}
            | None => None
            end;
          Capacity := Capacity (VolumeSpec pv);
          StorageClassName := StorageClassName (VolumeSpec pv);
          PersistentVolumeReclaimPolicy :=
            PersistentVolumeReclaimPolicy (VolumeSpec pv) |};
     VolumePhase := VolumePhase pv |}.

Definition DeepCopyPVC (pvc : PersistentVolumeClaim) : PersistentVolumeClaim :=
  {| ClaimMeta := DeepCopyMeta (ClaimMeta pvc);
     ClaimSpec :=
       {| VolumeName := VolumeName (ClaimSpec pvc);
          ClaimStorageClassName := ClaimStorageClassName (ClaimSpec pvc);
          ClaimRequest := ClaimRequest (ClaimSpec pvc) |};
     ClaimPhase := ClaimPhase pvc |}.

(** [pvCopy.Spec.ClaimRef = ref]. *)
Definition setClaimRef (ref : option ObjectReference) (pv : PersistentVolume)
  : PersistentVolume :=
  {| VolumeMeta := VolumeMeta pv;
     VolumeSpec :=
       {| ClaimRef := ref;
          Capacity := Capacity (VolumeSpec pv);
          StorageClassName := StorageClassName (VolumeSpec pv);
          PersistentVolumeReclaimPolicy :=
            PersistentVolumeReclaimPolicy (VolumeSpec pv) |};
     VolumePhase := VolumePhase pv |}.

(** [pvcCopy.Finalizers = fs]. *)
Definition setFinalizers (fs : list string) (pvc : PersistentVolumeClaim)
  : PersistentVolumeClaim :=
  {| ClaimMeta :=
       {| Name := Name (ClaimMeta pvc); Namespace := Namespace (ClaimMeta pvc);
          UID := UID (ClaimMeta pvc);
          ResourceVersion := ResourceVersion (ClaimMeta pvc);
          Labels := Labels (ClaimMeta pvc);
          Finalizers := fs;
          DeletionTimestamp := DeletionTimestamp (ClaimMeta pvc) |};
     ClaimSpec := ClaimSpec pvc;
     ClaimPhase := ClaimPhase pvc |}.

(** The [removeFinalizer] method of the reconciler. *)
Definition PVCReconciler_removeFinalizer (pvc : PersistentVolumeClaim)
  : M (Result * option Err) :=
  let pvcCopy := DeepCopyPVC pvc in
  let pvcCopy := setFinalizers (removeFinalizer (Finalizers (ClaimMeta pvcCopy)))
                               pvcCopy in
  err <- UpdatePVC pvcCopy ;;
  match err with
  | Some e => ret (emptyResult, Some e)
  | None => ret (emptyResult, None)
  end.

(** The test [handlePVCDeletion] makes on the volume it read. *)
Definition claimRefMatches (pv : PersistentVolume) (pvc : PersistentVolumeClaim)
  : bool :=
  match ClaimRef (VolumeSpec pv) with
  | None => false
  | Some ref =>
      String.eqb (RefName ref) (Name (ClaimMeta pvc))
      && String.eqb (RefNamespace ref) (Namespace (ClaimMeta pvc))
  end.

Definition handlePVCDeletion (pvc : PersistentVolumeClaim)
  : M (Result * option Err) :=
  if negb (String.eqb (VolumeName (ClaimSpec pvc)) "") then
    r <- GetPV (VolumeName (ClaimSpec pvc)) ;;
    match r with
    | inr err =>
        match IgnoreNotFound (Some err) with
        | Some _ => ret (emptyResult, Some err)
        | None => PVCReconciler_removeFinalizer pvc
        end
    | inl pv =>
        if claimRefMatches pv pvc then
          let pvCopy := setClaimRef None (DeepCopyPV pv) in
          err <- UpdatePV pvCopy ;;
          match err with
          | Some e => ret (emptyResult, Some e)
          | None => PVCReconciler_removeFinalizer pvc
          end
        else PVCReconciler_removeFinalizer pvc
    end
  else PVCReconciler_removeFinalizer pvc.

Definition Reconcile (req : string * string) : M (Result * option Err) :=
  r <- GetPVC req ;;
  match r with
  | inr err => ret (emptyResult, IgnoreNotFound (Some err))
  | inl pvc =>
      if negb (IsZero (DeletionTimestamp (ClaimMeta pvc)))
         && hasFinalizer (Finalizers (ClaimMeta pvc))
      then handlePVCDeletion pvc
      else ret (emptyResult, None)
  end.

(** What the controller host makes of a returned pair: an error is
    retried with backoff, a result asking for it is requeued, anything
    else is done. *)
Inductive Outcome := Success | Requeued | RetryableFailure (e : Err).

Definition outcome (res : Result * option Err) : Outcome :=
  match res with
  | (_, Some e) => RetryableFailure e
  | (r, None) =>
      if (0 <? RequeueAfter r)%Z || Requeue r then Requeued else Success
  end.

(** The store writes among a list of calls. *)
Definition isWrite (c : Call) : bool :=
  match c with
  | UpdateVolume _ _ | UpdateClaim _ _ => true
  | _ => false
  end.

Definition writes (cs : list Call) : list Call := List.filter isWrite cs.

(** Running the reconciler [n] times in a row on one request. *)
Fixpoint ReconcileTimes (n : nat) (req : string * string)
  : M (list (Result * option Err)) :=
  match n with
  | O => ret []
  | S k =>
      r <- Reconcile req ;;
      rs <- ReconcileTimes k req ;;
      ret (r :: rs)
  end.

(** ** Observing a run *)

Definition value {A} (m : M A) (w : World) : A := fst (fst (m w)).
Definition world {A} (m : M A) (w : World) : World := snd (fst (m w)).
Definition calls {A} (m : M A) (w : World) : list Call := snd (m w).

(** The effect of one recorded call on the store: only a write that
    succeeded changes it. *)
Definition applyCall (c : Cluster) (call : Call) : Cluster :=
  match call with
  | UpdateVolume pv None => storeVolume pv c
  | UpdateClaim pvc None => storeClaim pvc c
  | _ => c
  end.

Definition replay (c : Cluster) (cs : list Call) : Cluster :=
  fold_left applyCall cs c.

(** Every object is stored under its own identity. *)
Definition wf_cluster (c : Cluster) : Prop :=
  map_Forall (fun k pvc => claimKey pvc = k) (claims c)
  /\ map_Forall (fun n pv => Name (VolumeMeta pv) = n) (volumes c).

#[global] Instance wf_cluster_dec (c : Cluster) : Decision (wf_cluster c) :=
  and_dec _ _.

(** A back-reference matches a claim iff both name and namespace agree. *)
Definition backRefMatches (pv : PersistentVolume) (pvc : PersistentVolumeClaim)
  : Prop :=
  exists ref, ClaimRef (VolumeSpec pv) = Some ref
              /\ RefName ref = Name (ClaimMeta pvc)
              /\ RefNamespace ref = Namespace (ClaimMeta pvc).

Definition deletionMarked (m : ObjectMeta) : Prop :=
  IsZero (DeletionTimestamp m) = false.

Definition guarded (m : ObjectMeta) : Prop :=
  In PVClaimRefCleanupFinalizer (Finalizers m).

(** The store holds a dangling back-reference for [pvc]: the volume the
    claim is bound to points at it while the stored claim no longer
    carries the guard token (or is gone). *)
Definition tokenAbsent (c : Cluster) (pvc : PersistentVolumeClaim) : bool :=
  match claims c !! claimKey pvc with
  | Some p => negb (hasFinalizer (Finalizers (ClaimMeta p)))
  | None => true
  end.

Definition pointsAt (c : Cluster) (pvc : PersistentVolumeClaim) : bool :=
  match volumes c !! VolumeName (ClaimSpec pvc) with
  | Some pv => claimRefMatches pv pvc
  | None => false
  end.

Definition dangling (c : Cluster) (pvc : PersistentVolumeClaim) : bool :=
  negb (String.eqb (VolumeName (ClaimSpec pvc)) "")
  && tokenAbsent c pvc && pointsAt c pvc.

(** The claim the [removeFinalizer] method writes back. *)
Definition stripped (pvc : PersistentVolumeClaim) : PersistentVolumeClaim :=
  setFinalizers (removeFinalizer (Finalizers (ClaimMeta pvc))) pvc.

(** The volume [handlePVCDeletion] writes back. *)
Definition released (pv : PersistentVolume) : PersistentVolume :=
  setClaimRef None pv.

(** What must precede the removal of the guard token: the calls made so
    far show the back-reference clear committed, or not needed. *)
Definition clearSettled (pvc : PersistentVolumeClaim) (pre : list Call) : Prop :=
  VolumeName (ClaimSpec pvc) = ""
  \/ In (GetVolume (VolumeName (ClaimSpec pvc)) (inr ErrNotFound)) pre
  \/ (exists pv, In (GetVolume (VolumeName (ClaimSpec pvc)) (inl pv)) pre
                 /\ ~ backRefMatches pv pvc)
  \/ (exists pv, In (GetVolume (VolumeName (ClaimSpec pvc)) (inl pv)) pre
                 /\ In (UpdateVolume (released pv) None) pre).

Definition isClaimWrite (c : Call) : bool :=
  match c with
  | UpdateClaim _ _ => true
  | _ => false
  end.

Definition isVolumeWrite (c : Call) : bool :=
  match c with
  | UpdateVolume _ _ => true
  | _ => false
  end.

(** The conditions the update filter is described with. *)
Definition tokenFlips (objectOld objectNew : Object) : Prop :=
  hasFinalizer (GetFinalizers objectOld)
  <> hasFinalizer (GetFinalizers objectNew).

Definition deletionBegins (objectOld objectNew : Object) : Prop :=
  IsZero (GetDeletionTimestamp objectOld) = true
  /\ IsZero (GetDeletionTimestamp objectNew) = false.

(** Sample objects: the claim [c1] in [ns1] bound to the volume [v1]. *)
Definition sampleMeta (n ns : string) (fs : list string) (d : option Time)
  : ObjectMeta :=
  {| Name := n; Namespace := ns; UID := "u-" ++ n; ResourceVersion := "7";
     Labels := [("app", "db")]; Finalizers := fs; DeletionTimestamp := d |}.

Definition sampleClaim (fs : list string) (d : option Time) (vol : string)
  : PersistentVolumeClaim :=
  {| ClaimMeta := sampleMeta "c1" "ns1" fs d;
     ClaimSpec := {| VolumeName := vol; ClaimStorageClassName := "fast";
                     ClaimRequest := 10 |};
     ClaimPhase := "Bound" |}.

Definition sampleVolume (ref : option (string * string)) : PersistentVolume :=
  {| VolumeMeta := sampleMeta "v1" "" ["kubernetes.io/pv-protection"] None;
     VolumeSpec :=
       {| ClaimRef :=
            match ref with
            | Some (n, ns) =>
                Some {| RefKind := "PersistentVolumeClaim"; RefNamespace := ns;
                        RefName := n; RefUID := "u-" ++ n |}
            | None => None
            end;
          Capacity := 10; StorageClassName := "fast";
          PersistentVolumeReclaimPolicy := "Retain" |};
     VolumePhase := "Bound" |}.

Definition sampleWorld (pvc : option PersistentVolumeClaim)
  (pv : option PersistentVolume) (fs : list (option Fault)) : World :=
  {| cluster :=
       {| claims := match pvc with
                    | Some p => {[ claimKey p := p ]}
                    | None => ∅
                    end;
          volumes := match pv with
                     | Some v => {[ Name (VolumeMeta v) := v ]}
                     | None => ∅
                     end |};
     faults := fs |}.

Definition doomedClaim : PersistentVolumeClaim :=
  sampleClaim ["keep"; PVClaimRefCleanupFinalizer] (Some 1700000000%Z) "v1".

(** The elements the loop of [removeFinalizer] keeps. *)
Definition keeps (s : string) : bool :=
  negb (String.eqb s PVClaimRefCleanupFinalizer).

(** What a read may answer, given what the store holds. *)
Inductive readResult {A} (stored : option A) : A + Err -> Prop :=
| readHit a : stored = Some a -> readResult stored (inl a)
| readMiss : stored = None -> readResult stored (inr ErrNotFound)
| readFault f : readResult stored (inr (fault_err f)).

(** What a write may answer, given what the store holds under its key. *)
Inductive writeResult {A} (stored : option A) : option Err -> Prop :=
| writeDone a : stored = Some a -> writeResult stored None
| writeMiss : stored = None -> writeResult stored (Some ErrNotFound)
| writeFault f : writeResult stored (Some (fault_err f)).

(** A fault schedule that injects nothing. *)
Definition quiet (fs : list (option Fault)) : Prop :=
  Forall (fun f => f = None) fs.

(** The error a recorded call ended with, if any. *)
Definition callError (c : Call) : option Err :=
  match c with
  | GetClaim _ (inr e) | GetVolume _ (inr e) => Some e
  | GetClaim _ (inl _) | GetVolume _ (inl _) => None
  | UpdateVolume _ r | UpdateClaim _ r => r
  end.

Definition isRead (c : Call) : bool := negb (isWrite c).

(** Two stores of the same shape: the same claims and volumes exist,
    and objects stay stored under their own identity. *)
Definition sameShape (c c' : Cluster) : Prop :=
  dom (claims c') = dom (claims c)
  /\ dom (volumes c') = dom (volumes c)
  /\ (wf_cluster c -> wf_cluster c').

(** A computation that relates the store it leaves to the store it
    found by [P], from every world. *)
Definition preserves {A} (P : Cluster -> Cluster -> Prop) (m : M A) : Prop :=
  forall w, P (cluster w) (cluster (world m w)).

(** * Properties *)

(** ** The finalizer helpers *)

Lemma slices_Contains_In (s : list string) (v : string) :
  slices_Contains s v = true <-> In v s.
Proof.
  induction s as [|x rest IH]; simpl.
  - split; [discriminate | tauto].
  - destruct (String.eqb_spec v x) as [->|Hne].
    + split; auto.
    + rewrite IH. split; [auto | intros [Heq|Hin]; [congruence | exact Hin]].
Qed.

Lemma hasFinalizer_guarded (m : ObjectMeta) :
  hasFinalizer (Finalizers m) = true <-> guarded m.
Proof. apply slices_Contains_In. Qed.

Lemma hasFinalizer_not_guarded (m : ObjectMeta) :
  hasFinalizer (Finalizers m) = false <-> ~ guarded m.
Proof.
  rewrite <- hasFinalizer_guarded.
  destruct (hasFinalizer (Finalizers m)); split; congruence.
Qed.

Lemma removeFinalizer_loop (l acc : list string) :
  fold_left
    (fun (result : list string) (finalizer : string) =>
       if negb (String.eqb finalizer PVClaimRefCleanupFinalizer)
       then (result ++ [finalizer])%list
       else result)
    l acc
  = (acc ++ List.filter keeps l)%list.
Proof.
  revert acc. induction l as [|x l IH]; intros acc; simpl.
  - now rewrite app_nil_r.
  - rewrite IH. unfold keeps at 2.
    destruct (negb (x =? PVClaimRefCleanupFinalizer)); simpl.
    + now rewrite <- app_assoc.
    + reflexivity.
Qed.

Lemma removeFinalizer_filter (l : list string) :
  removeFinalizer l = List.filter keeps l.
Proof. unfold removeFinalizer. now rewrite removeFinalizer_loop. Qed.

Lemma keeps_true (s : string) :
  keeps s = true <-> s <> PVClaimRefCleanupFinalizer.
Proof.
  unfold keeps. destruct (String.eqb_spec s PVClaimRefCleanupFinalizer).
  - split; [discriminate | congruence].
  - split; auto.
Qed.

Lemma removeFinalizer_In (l : list string) (s : string) :
  In s (removeFinalizer l) <-> In s l /\ s <> PVClaimRefCleanupFinalizer.
Proof. rewrite removeFinalizer_filter, filter_In, keeps_true. tauto. Qed.

Lemma hasFinalizer_removeFinalizer (l : list string) :
  hasFinalizer (removeFinalizer l) = false.
Proof.
  destruct (hasFinalizer (removeFinalizer l)) eqn:E; [|reflexivity].
  apply slices_Contains_In, removeFinalizer_In in E. tauto.
Qed.

Lemma removeFinalizer_count (l : list string) (s : string) :
  s <> PVClaimRefCleanupFinalizer ->
  count_occ String.string_dec (removeFinalizer l) s = count_occ String.string_dec l s.
Proof.
  intros Hs. rewrite removeFinalizer_filter.
  induction l as [|x l IH]; simpl; [reflexivity|].
  destruct (keeps x) eqn:Hk; simpl.
  - destruct (String.string_dec x s); congruence.
  - destruct (String.string_dec x s) as [->|]; [|exact IH].
    apply keeps_true in Hs. congruence.
Qed.

Lemma removeFinalizer_sublist (l : list string) :
  sublist (removeFinalizer l) l.
Proof.
  rewrite removeFinalizer_filter.
  induction l as [|x l IH]; simpl; [constructor|].
  destruct (keeps x); now constructor.
Qed.

Lemma removeFinalizer_fixed (l : list string) :
  ~ In PVClaimRefCleanupFinalizer l -> removeFinalizer l = l.
Proof.
  rewrite removeFinalizer_filter.
  induction l as [|x l IH]; simpl; intros Hnot; [reflexivity|].
  assert (Hk : keeps x = true) by (apply keeps_true; intros ->; tauto).
  rewrite Hk, IH; tauto.
Qed.

Lemma claimRefMatches_spec (pv : PersistentVolume) (pvc : PersistentVolumeClaim) :
  claimRefMatches pv pvc = true <-> backRefMatches pv pvc.
Proof.
  unfold claimRefMatches, backRefMatches.
  destruct (ClaimRef (VolumeSpec pv)) as [ref|].
  - rewrite andb_true_iff, !String.eqb_eq. split.
    + intros [Hn Hns]. exists ref. auto.
    + intros (r & Hr & Hn & Hns). inversion Hr; subst. auto.
  - split; [discriminate | intros (r & Hr & _); discriminate].
Qed.

Lemma claimRefMatches_false (pv : PersistentVolume) (pvc : PersistentVolumeClaim) :
  claimRefMatches pv pvc = false <-> ~ backRefMatches pv pvc.
Proof.
  rewrite <- claimRefMatches_spec.
  destruct (claimRefMatches pv pvc); split; congruence.
Qed.

Lemma DeepCopyPV_id (pv : PersistentVolume) : DeepCopyPV pv = pv.
Proof. destruct pv as [[] [[[]|]] ?]; reflexivity. Qed.

Lemma DeepCopyPVC_id (pvc : PersistentVolumeClaim) : DeepCopyPVC pvc = pvc.
Proof. destruct pvc as [[] [] ?]; reflexivity. Qed.

(** ** Running computations *)

Lemma run_eta {A} (m : M A) (w : World) :
  m w = (value m w, world m w, calls m w).
Proof. unfold value, world, calls. now destruct (m w) as [[a w1] c]. Qed.

Lemma value_ret {A} (a : A) w : value (ret a) w = a.
Proof. reflexivity. Qed.
Lemma world_ret {A} (a : A) w : world (ret a) w = w.
Proof. reflexivity. Qed.
Lemma calls_ret {A} (a : A) w : calls (ret a) w = [].
Proof. reflexivity. Qed.

Lemma value_bind {A B} (m : M A) (k : A -> M B) w :
  value (bind m k) w = value (k (value m w)) (world m w).
Proof.
  unfold value, world, bind. destruct (m w) as [[a w1] c1]; simpl.
  now destruct (k a w1) as [[b w2] c2].
Qed.

Lemma world_bind {A B} (m : M A) (k : A -> M B) w :
  world (bind m k) w = world (k (value m w)) (world m w).
Proof.
  unfold value, world, bind. destruct (m w) as [[a w1] c1]; simpl.
  now destruct (k a w1) as [[b w2] c2].
Qed.

Lemma calls_bind {A B} (m : M A) (k : A -> M B) w :
  calls (bind m k) w
  = (calls m w ++ calls (k (value m w)) (world m w))%list.
Proof.
  unfold value, world, calls, bind. destruct (m w) as [[a w1] c1]; simpl.
  now destruct (k a w1) as [[b w2] c2].
Qed.

Lemma next_fault_rest fs : snd (next_fault fs) = tail fs.
Proof. now destruct fs. Qed.

Lemma calls_GetPVC key w : calls (GetPVC key) w = [GetClaim key (value (GetPVC key) w)].
Proof. unfold calls, value, GetPVC. now destruct (next_fault (faults w)). Qed.

Lemma cluster_GetPVC key w : cluster (world (GetPVC key) w) = cluster w.
Proof. unfold world, GetPVC. now destruct (next_fault (faults w)). Qed.

Lemma faults_GetPVC key w : faults (world (GetPVC key) w) = tail (faults w).
Proof.
  unfold world, GetPVC. rewrite <- next_fault_rest.
  now destruct (next_fault (faults w)).
Qed.

Lemma value_GetPVC key w :
  readResult (claims (cluster w) !! key) (value (GetPVC key) w).
Proof.
  unfold value, GetPVC. destruct (next_fault (faults w)) as [[f|] rest]; simpl.
  - constructor.
  - destruct (claims (cluster w) !! key) eqn:E; now constructor.
Qed.

Lemma calls_GetPV name w : calls (GetPV name) w = [GetVolume name (value (GetPV name) w)].
Proof. unfold calls, value, GetPV. now destruct (next_fault (faults w)). Qed.

Lemma cluster_GetPV name w : cluster (world (GetPV name) w) = cluster w.
Proof. unfold world, GetPV. now destruct (next_fault (faults w)). Qed.

Lemma faults_GetPV name w : faults (world (GetPV name) w) = tail (faults w).
Proof.
  unfold world, GetPV. rewrite <- next_fault_rest.
  now destruct (next_fault (faults w)).
Qed.

Lemma value_GetPV name w :
  readResult (volumes (cluster w) !! name) (value (GetPV name) w).
Proof.
  unfold value, GetPV. destruct (next_fault (faults w)) as [[f|] rest]; simpl.
  - constructor.
  - destruct (volumes (cluster w) !! name) eqn:E; now constructor.
Qed.

Lemma calls_UpdatePV pv w :
  calls (UpdatePV pv) w = [UpdateVolume pv (value (UpdatePV pv) w)].
Proof. unfold calls, value, UpdatePV. now destruct (next_fault (faults w)). Qed.

Lemma cluster_UpdatePV pv w :
  cluster (world (UpdatePV pv) w)
  = applyCall (cluster w) (UpdateVolume pv (value (UpdatePV pv) w)).
Proof.
  unfold world, value, UpdatePV. destruct (next_fault (faults w)) as [[f|] rest]; simpl.
  - reflexivity.
  - now destruct (volumes (cluster w) !! Name (VolumeMeta pv)).
Qed.

Lemma faults_UpdatePV pv w : faults (world (UpdatePV pv) w) = tail (faults w).
Proof.
  unfold world, UpdatePV. rewrite <- next_fault_rest.
  now destruct (next_fault (faults w)).
Qed.

Lemma value_UpdatePV pv w :
  writeResult (volumes (cluster w) !! Name (VolumeMeta pv)) (value (UpdatePV pv) w).
Proof.
  unfold value, UpdatePV. destruct (next_fault (faults w)) as [[f|] rest]; simpl.
  - constructor.
  - destruct (volumes (cluster w) !! Name (VolumeMeta pv)) eqn:E;
      econstructor; eauto.
Qed.

Lemma calls_UpdatePVC pvc w :
  calls (UpdatePVC pvc) w = [UpdateClaim pvc (value (UpdatePVC pvc) w)].
Proof. unfold calls, value, UpdatePVC. now destruct (next_fault (faults w)). Qed.

Lemma cluster_UpdatePVC pvc w :
  cluster (world (UpdatePVC pvc) w)
  = applyCall (cluster w) (UpdateClaim pvc (value (UpdatePVC pvc) w)).
Proof.
  unfold world, value, UpdatePVC. destruct (next_fault (faults w)) as [[f|] rest]; simpl.
  - reflexivity.
  - now destruct (claims (cluster w) !! claimKey pvc).
Qed.

Lemma faults_UpdatePVC pvc w : faults (world (UpdatePVC pvc) w) = tail (faults w).
Proof.
  unfold world, UpdatePVC. rewrite <- next_fault_rest.
  now destruct (next_fault (faults w)).
Qed.

Lemma value_UpdatePVC pvc w :
  writeResult (claims (cluster w) !! claimKey pvc) (value (UpdatePVC pvc) w).
Proof.
  unfold value, UpdatePVC. destruct (next_fault (faults w)) as [[f|] rest]; simpl.
  - constructor.
  - destruct (claims (cluster w) !! claimKey pvc) eqn:E;
      econstructor; eauto.
Qed.

Lemma fault_err_not_NotFound f : fault_err f <> ErrNotFound.
Proof. now destruct f. Qed.

Lemma read_inl_stored {A} (stored : option A) (a : A) :
  readResult stored (inl a) -> stored = Some a.
Proof. now inversion 1. Qed.

Lemma read_NotFound_absent {A} (stored : option A) :
  readResult stored (inr ErrNotFound) -> stored = None.
Proof.
  inversion 1 as [| |f Hf]; [assumption|].
  now destruct f.
Qed.

(** ** The paths through the reconciler *)

Lemma PVCReconciler_removeFinalizer_run (pvc : PersistentVolumeClaim) (w : World) :
  PVCReconciler_removeFinalizer pvc w
  = ((emptyResult, value (UpdatePVC (stripped pvc)) w),
     world (UpdatePVC (stripped pvc)) w,
     [UpdateClaim (stripped pvc) (value (UpdatePVC (stripped pvc)) w)]).
Proof.
  rewrite (run_eta (PVCReconciler_removeFinalizer pvc) w). unfold PVCReconciler_removeFinalizer.
  rewrite value_bind, world_bind, calls_bind, calls_UpdatePVC, DeepCopyPVC_id.
  fold (stripped pvc).
  destruct (value (UpdatePVC (stripped pvc)) w); reflexivity.
Qed.

Lemma handle_unbound (pvc : PersistentVolumeClaim) (w : World) :
  VolumeName (ClaimSpec pvc) = "" ->
  handlePVCDeletion pvc w
  = (value (PVCReconciler_removeFinalizer pvc) w, world (PVCReconciler_removeFinalizer pvc) w,
     calls (PVCReconciler_removeFinalizer pvc) w).
Proof.
  intros H. unfold handlePVCDeletion. rewrite H. simpl. apply run_eta.
Qed.

Lemma handle_enter (pvc : PersistentVolumeClaim) :
  VolumeName (ClaimSpec pvc) <> "" ->
  negb (String.eqb (VolumeName (ClaimSpec pvc)) "") = true.
Proof. intros H. now apply negb_true_iff, String.eqb_neq. Qed.

Lemma handle_read_failed (pvc : PersistentVolumeClaim) (w : World) (e : Err) :
  VolumeName (ClaimSpec pvc) <> "" ->
  value (GetPV (VolumeName (ClaimSpec pvc))) w = inr e ->
  e <> ErrNotFound ->
  handlePVCDeletion pvc w
  = ((emptyResult, Some e), world (GetPV (VolumeName (ClaimSpec pvc))) w,
     [GetVolume (VolumeName (ClaimSpec pvc)) (inr e)]).
Proof.
  intros Hn Hr He. rewrite (run_eta (handlePVCDeletion pvc) w).
  unfold handlePVCDeletion. rewrite (handle_enter _ Hn).
  rewrite value_bind, world_bind, calls_bind, calls_GetPV, Hr.
  destruct e; [congruence | reflexivity | reflexivity].
Qed.

Lemma handle_gone (pvc : PersistentVolumeClaim) (w : World) :
  VolumeName (ClaimSpec pvc) <> "" ->
  value (GetPV (VolumeName (ClaimSpec pvc))) w = inr ErrNotFound ->
  let w1 := world (GetPV (VolumeName (ClaimSpec pvc))) w in
  handlePVCDeletion pvc w
  = (value (PVCReconciler_removeFinalizer pvc) w1, world (PVCReconciler_removeFinalizer pvc) w1,
     GetVolume (VolumeName (ClaimSpec pvc)) (inr ErrNotFound)
       :: calls (PVCReconciler_removeFinalizer pvc) w1).
Proof.
  intros Hn Hr w1. rewrite (run_eta (handlePVCDeletion pvc) w).
  unfold handlePVCDeletion. rewrite (handle_enter _ Hn).
  rewrite value_bind, world_bind, calls_bind, calls_GetPV, Hr.
  reflexivity.
Qed.

Lemma handle_mismatch (pvc : PersistentVolumeClaim) (w : World)
  (pv : PersistentVolume) :
  VolumeName (ClaimSpec pvc) <> "" ->
  value (GetPV (VolumeName (ClaimSpec pvc))) w = inl pv ->
  claimRefMatches pv pvc = false ->
  let w1 := world (GetPV (VolumeName (ClaimSpec pvc))) w in
  handlePVCDeletion pvc w
  = (value (PVCReconciler_removeFinalizer pvc) w1, world (PVCReconciler_removeFinalizer pvc) w1,
     GetVolume (VolumeName (ClaimSpec pvc)) (inl pv)
       :: calls (PVCReconciler_removeFinalizer pvc) w1).
Proof.
  intros Hn Hr Hm w1. rewrite (run_eta (handlePVCDeletion pvc) w).
  unfold handlePVCDeletion. rewrite (handle_enter _ Hn).
  rewrite value_bind, world_bind, calls_bind, calls_GetPV, Hr.
  simpl. rewrite Hm. reflexivity.
Qed.

Lemma handle_clear_failed (pvc : PersistentVolumeClaim) (w : World)
  (pv : PersistentVolume) (e : Err) :
  VolumeName (ClaimSpec pvc) <> "" ->
  value (GetPV (VolumeName (ClaimSpec pvc))) w = inl pv ->
  claimRefMatches pv pvc = true ->
  let w1 := world (GetPV (VolumeName (ClaimSpec pvc))) w in
  value (UpdatePV (released pv)) w1 = Some e ->
  handlePVCDeletion pvc w
  = ((emptyResult, Some e), world (UpdatePV (released pv)) w1,
     [GetVolume (VolumeName (ClaimSpec pvc)) (inl pv);
      UpdateVolume (released pv) (Some e)]).
Proof.
  intros Hn Hr Hm w1 Hu. rewrite (run_eta (handlePVCDeletion pvc) w).
  unfold handlePVCDeletion. rewrite (handle_enter _ Hn).
  rewrite value_bind, world_bind, calls_bind, calls_GetPV, Hr.
  simpl. rewrite Hm, DeepCopyPV_id. fold (released pv). fold w1.
  rewrite value_bind, world_bind, calls_bind, calls_UpdatePV, Hu.
  reflexivity.
Qed.

Lemma handle_cleared (pvc : PersistentVolumeClaim) (w : World)
  (pv : PersistentVolume) :
  VolumeName (ClaimSpec pvc) <> "" ->
  value (GetPV (VolumeName (ClaimSpec pvc))) w = inl pv ->
  claimRefMatches pv pvc = true ->
  let w1 := world (GetPV (VolumeName (ClaimSpec pvc))) w in
  value (UpdatePV (released pv)) w1 = None ->
  let w2 := world (UpdatePV (released pv)) w1 in
  handlePVCDeletion pvc w
  = (value (PVCReconciler_removeFinalizer pvc) w2, world (PVCReconciler_removeFinalizer pvc) w2,
     GetVolume (VolumeName (ClaimSpec pvc)) (inl pv)
       :: UpdateVolume (released pv) None
       :: calls (PVCReconciler_removeFinalizer pvc) w2).
Proof.
  intros Hn Hr Hm w1 Hu w2. rewrite (run_eta (handlePVCDeletion pvc) w).
  unfold handlePVCDeletion. rewrite (handle_enter _ Hn).
  rewrite value_bind, world_bind, calls_bind, calls_GetPV, Hr.
  simpl. rewrite Hm, DeepCopyPV_id. fold (released pv). fold w1.
  rewrite value_bind, world_bind, calls_bind, calls_UpdatePV, Hu.
  reflexivity.
Qed.

Lemma Reconcile_read_failed (req : string * string) (w : World) (e : Err) :
  value (GetPVC req) w = inr e ->
  Reconcile req w
  = ((emptyResult, IgnoreNotFound (Some e)), world (GetPVC req) w,
     [GetClaim req (inr e)]).
Proof.
  intros Hr. rewrite (run_eta (Reconcile req) w). unfold Reconcile.
  rewrite value_bind, world_bind, calls_bind, calls_GetPVC, Hr.
  reflexivity.
Qed.

Lemma Reconcile_noop (req : string * string) (w : World)
  (pvc : PersistentVolumeClaim) :
  value (GetPVC req) w = inl pvc ->
  negb (IsZero (DeletionTimestamp (ClaimMeta pvc)))
    && hasFinalizer (Finalizers (ClaimMeta pvc)) = false ->
  Reconcile req w
  = ((emptyResult, None), world (GetPVC req) w, [GetClaim req (inl pvc)]).
Proof.
  intros Hr Hc. rewrite (run_eta (Reconcile req) w). unfold Reconcile.
  rewrite value_bind, world_bind, calls_bind, calls_GetPVC, Hr.
  simpl. rewrite Hc. reflexivity.
Qed.

Lemma Reconcile_cleanup (req : string * string) (w : World)
  (pvc : PersistentVolumeClaim) :
  value (GetPVC req) w = inl pvc ->
  deletionMarked (ClaimMeta pvc) ->
  guarded (ClaimMeta pvc) ->
  let w1 := world (GetPVC req) w in
  Reconcile req w
  = (value (handlePVCDeletion pvc) w1, world (handlePVCDeletion pvc) w1,
     GetClaim req (inl pvc) :: calls (handlePVCDeletion pvc) w1).
Proof.
  intros Hr Hd Hg w1. apply hasFinalizer_guarded in Hg.
  rewrite (run_eta (Reconcile req) w). unfold Reconcile.
  rewrite value_bind, world_bind, calls_bind, calls_GetPVC, Hr.
  simpl. rewrite Hd, Hg. reflexivity.
Qed.

Lemma run_value {A} (m : M A) w a w' cs : m w = (a, w', cs) -> value m w = a.
Proof. unfold value. now intros ->. Qed.

Lemma run_world {A} (m : M A) w a w' cs : m w = (a, w', cs) -> world m w = w'.
Proof. unfold world. now intros ->. Qed.

Lemma run_calls {A} (m : M A) w a w' cs : m w = (a, w', cs) -> calls m w = cs.
Proof. unfold calls. now intros ->. Qed.

Lemma value_PVCReconciler_removeFinalizer pvc w :
  value (PVCReconciler_removeFinalizer pvc) w
  = (emptyResult, value (UpdatePVC (stripped pvc)) w).
Proof. exact (run_value _ _ _ _ _ (PVCReconciler_removeFinalizer_run pvc w)). Qed.

Lemma world_PVCReconciler_removeFinalizer pvc w :
  world (PVCReconciler_removeFinalizer pvc) w = world (UpdatePVC (stripped pvc)) w.
Proof. exact (run_world _ _ _ _ _ (PVCReconciler_removeFinalizer_run pvc w)). Qed.

Lemma calls_PVCReconciler_removeFinalizer pvc w :
  calls (PVCReconciler_removeFinalizer pvc) w
  = [UpdateClaim (stripped pvc) (value (UpdatePVC (stripped pvc)) w)].
Proof. exact (run_calls _ _ _ _ _ (PVCReconciler_removeFinalizer_run pvc w)). Qed.

Lemma claimKey_stripped pvc : claimKey (stripped pvc) = claimKey pvc.
Proof. reflexivity. Qed.

Lemma Name_released pv : Name (VolumeMeta (released pv)) = Name (VolumeMeta pv).
Proof. reflexivity. Qed.

Lemma stripped_not_guarded pvc : ~ guarded (ClaimMeta (stripped pvc)).
Proof.
  apply hasFinalizer_not_guarded. simpl. apply hasFinalizer_removeFinalizer.
Qed.

(** ** The event filter *)

(** C8. A notification whose object is not a claim, or is a claim with
    an empty bound-volume identity, is never admitted, whatever its
    kind, its finalizers and its deletion timestamp. *)
Theorem filter_drops_unbound (n : Notification) :
  boundVolume (subject n) = None \/ boundVolume (subject n) = Some "" ->
  admits combined n = false.
Proof.
  intros H.
  assert (Hb : forall o,
             boundVolume o = None \/ boundVolume o = Some "" ->
             match o with
             | ObjClaim pvc => negb (String.eqb (VolumeName (ClaimSpec pvc)) "")
             | _ => false
             end = false).
  { intros [pvc|pv|m] [Hn|Hs]; simpl in *; try congruence.
    inversion Hs as [Hv]. now rewrite Hv. }
  destruct n as [o|o o'|o|o]; simpl in *; now rewrite (Hb _ H).
Qed.

Lemma filter_drops_unbound_witness :
  admits combined
    (UpdateEvent (ObjClaim (sampleClaim [] None ""))
       (ObjClaim (sampleClaim [PVClaimRefCleanupFinalizer] (Some 5%Z) "")))
  = false.
Proof. apply filter_drops_unbound. right. reflexivity. Defined.

(** C2, as the code has it. An update whose new object is a bound claim
    is admitted iff the presence of the guard token differs between the
    old and the new object, or the new object carries a deletion
    timestamp; the old object's deletion timestamp is not consulted. *)
Theorem update_filter_admits (objectOld : Object) (pvc : PersistentVolumeClaim) :
  VolumeName (ClaimSpec pvc) <> "" ->
  admits combined (UpdateEvent objectOld (ObjClaim pvc)) = true
  <-> tokenFlips objectOld (ObjClaim pvc) \/ deletionMarked (ClaimMeta pvc).
Proof.
  intros Hn. unfold tokenFlips, deletionMarked. simpl.
  rewrite (handle_enter _ Hn). simpl.
  unfold GetDeletionTimestamp. simpl.
  destruct (hasFinalizer (GetFinalizers objectOld)),
    (hasFinalizer (GetFinalizers (ObjClaim pvc))),
    (IsZero (DeletionTimestamp (ClaimMeta pvc))); simpl;
    intuition congruence.
Qed.

Lemma update_filter_admits_witness :
  admits combined
    (UpdateEvent (ObjClaim (sampleClaim [] None "v1")) (ObjClaim doomedClaim))
  = true.
Proof.
  apply (update_filter_admits (ObjClaim (sampleClaim [] None "v1")) doomedClaim).
  - discriminate.
  - right. reflexivity.
Defined.

(** C2, as stated, fails: a bound claim already marked for deletion on
    the old object, with the token on both sides, is admitted again. *)
Lemma update_filter_readmits_deleting :
  let objectOld := ObjClaim doomedClaim in
  let objectNew :=
    ObjClaim (sampleClaim [PVClaimRefCleanupFinalizer] (Some 1700000000%Z) "v1") in
  boundVolume objectNew = Some "v1"
  /\ IsZero (GetDeletionTimestamp objectOld) = false
  /\ hasFinalizer (GetFinalizers objectOld) = hasFinalizer (GetFinalizers objectNew)
  /\ admits combined (UpdateEvent objectOld objectNew) = true
  /\ ~ (admits combined (UpdateEvent objectOld objectNew) = true
        <-> tokenFlips objectOld objectNew \/ deletionBegins objectOld objectNew).
Proof.
  repeat split; try reflexivity.
  intros [Hadm _]. destruct (Hadm eq_refl) as [Hflip|[Hold _]].
  - apply Hflip. reflexivity.
  - discriminate Hold.
Qed.

(** ** The reconciler, path by path *)

Create Rewrite HintDb run.

#[local] Hint Rewrite
  value_PVCReconciler_removeFinalizer world_PVCReconciler_removeFinalizer calls_PVCReconciler_removeFinalizer
  cluster_UpdatePVC cluster_UpdatePV cluster_GetPV cluster_GetPVC
  faults_UpdatePVC faults_UpdatePV faults_GetPV faults_GetPVC : run.

Ltac use_run H :=
  let R := fresh "Hrun" in
  pose proof H as R; cbv zeta in R;
  rewrite ?(run_value _ _ _ _ _ R), ?(run_world _ _ _ _ _ R),
    ?(run_calls _ _ _ _ _ R);
  clear R; autorewrite with run.

(** C6. When the first read of the claim fails, the reconciler makes no
    further call and leaves the store as it was; NotFound is reported
    as success with an empty result, any other error is returned and so
    retried by the host. *)
Theorem claim_read_failure (req : string * string) (w : World) (e : Err) :
  value (GetPVC req) w = inr e ->
  calls (Reconcile req) w = [GetClaim req (inr e)]
  /\ writes (calls (Reconcile req) w) = []
  /\ cluster (world (Reconcile req) w) = cluster w
  /\ (e = ErrNotFound ->
      value (Reconcile req) w = (emptyResult, None)
      /\ outcome (value (Reconcile req) w) = Success)
  /\ (e <> ErrNotFound ->
      value (Reconcile req) w = (emptyResult, Some e)
      /\ outcome (value (Reconcile req) w) = RetryableFailure e).
Proof.
  intros Hr. use_run (Reconcile_read_failed req w e Hr).
  split; [reflexivity|]. split; [reflexivity|]. split; [reflexivity|].
  split.
  - intros ->. split; reflexivity.
  - intros He. destruct e; [congruence | split; reflexivity ..].
Qed.

Lemma claim_read_failure_witness :
  value (Reconcile ("ns1", "c1")) (sampleWorld None None [])
  = (emptyResult, None)
  /\ value (Reconcile ("ns1", "c1"))
       (sampleWorld (Some doomedClaim) None [Some FaultTransient])
     = (emptyResult, Some ErrTransient).
Proof.
  split.
  - apply (claim_read_failure ("ns1", "c1") (sampleWorld None None [])
             ErrNotFound); reflexivity.
  - apply (claim_read_failure ("ns1", "c1")
             (sampleWorld (Some doomedClaim) None [Some FaultTransient])
             ErrTransient); [reflexivity | discriminate].
Defined.

Lemma idle_condition (pvc : PersistentVolumeClaim) :
  ~ deletionMarked (ClaimMeta pvc) \/ ~ guarded (ClaimMeta pvc) ->
  negb (IsZero (DeletionTimestamp (ClaimMeta pvc)))
    && hasFinalizer (Finalizers (ClaimMeta pvc)) = false.
Proof.
  unfold deletionMarked. intros [Hd|Hg].
  - destruct (IsZero (DeletionTimestamp (ClaimMeta pvc))); [reflexivity|].
    now destruct Hd.
  - apply hasFinalizer_not_guarded in Hg. rewrite Hg. apply andb_false_r.
Qed.

Lemma value_GetPVC_quiet (key : string * string) (w : World) :
  quiet (faults w) ->
  value (GetPVC key) w
  = match claims (cluster w) !! key with
    | Some pvc => inl pvc
    | None => inr ErrNotFound
    end.
Proof.
  unfold value, GetPVC, quiet. destruct (faults w) as [|f fs]; simpl.
  - reflexivity.
  - intros H. inversion H; subst. reflexivity.
Qed.

Lemma quiet_tail (fs : list (option Fault)) : quiet fs -> quiet (tail fs).
Proof. destruct fs; simpl; [auto | now inversion 1]. Qed.

(** One run over a stored claim that is not both marked and guarded. *)
Lemma Reconcile_idle (req : string * string) (w : World)
  (pvc : PersistentVolumeClaim) :
  claims (cluster w) !! req = Some pvc ->
  ~ deletionMarked (ClaimMeta pvc) \/ ~ guarded (ClaimMeta pvc) ->
  writes (calls (Reconcile req) w) = []
  /\ cluster (world (Reconcile req) w) = cluster w
  /\ faults (world (Reconcile req) w) = tail (faults w)
  /\ (value (Reconcile req) w = (emptyResult, None)
      \/ exists f, value (Reconcile req) w = (emptyResult, Some (fault_err f)))
  /\ (quiet (faults w) -> value (Reconcile req) w = (emptyResult, None)).
Proof.
  intros Hs Hc. apply idle_condition in Hc.
  pose proof (value_GetPVC req w) as Hread.
  destruct (value (GetPVC req) w) as [p|e] eqn:Hv.
  - apply read_inl_stored in Hread.
    assert (p = pvc) by congruence; subst p.
    use_run (Reconcile_noop req w pvc Hv Hc). repeat split; auto.
  - use_run (Reconcile_read_failed req w e Hv).
    inversion Hread as [| Hmiss |f]; subst.
    + congruence.
    + repeat split; try reflexivity.
      * right. exists f. now destruct f.
      * intros Hq. rewrite (value_GetPVC_quiet req w Hq), Hs in Hv.
        discriminate.
Qed.

Lemma ReconcileTimes_idle (req : string * string) (pvc : PersistentVolumeClaim)
  (n : nat) :
  ~ deletionMarked (ClaimMeta pvc) \/ ~ guarded (ClaimMeta pvc) ->
  forall w, claims (cluster w) !! req = Some pvc ->
  writes (calls (ReconcileTimes n req) w) = []
  /\ cluster (world (ReconcileTimes n req) w) = cluster w
  /\ Forall (fun r => r = (emptyResult, None)
                      \/ exists f, r = (emptyResult, Some (fault_err f)))
       (value (ReconcileTimes n req) w)
  /\ (quiet (faults w) ->
      value (ReconcileTimes n req) w = repeat (emptyResult, None) n).
Proof.
  intros Hc. induction n as [|n IH]; intros w Hs.
  - repeat split; try reflexivity. constructor.
  - destruct (Reconcile_idle req w pvc Hs Hc) as (Hw & Hcl & Hf & Hr & Hq).
    assert (Hs' : claims (cluster (world (Reconcile req) w)) !! req = Some pvc)
      by now rewrite Hcl.
    destruct (IH _ Hs') as (IHw & IHc & IHr & IHq).
    simpl. rewrite !value_bind, !world_bind, !calls_bind.
    rewrite value_ret, world_ret, calls_ret, app_nil_r.
    unfold writes in *. rewrite List.filter_app, Hw, IHw.
    repeat split.
    + now rewrite IHc.
    + now constructor.
    + intros Hquiet. rewrite (Hq Hquiet), IHq; [reflexivity|].
      rewrite Hf. now apply quiet_tail.
Qed.

(** C5. When the claim read is not both marked for deletion and
    guarded by the token, the reconciler answers success with an empty
    result, makes no call besides that read and leaves the store as it
    was; repeated any number of times it still writes nothing and
    leaves the store as it was, and without injected read faults every
    one of the runs answers success. *)
Theorem idle_claim_untouched (req : string * string) (w : World)
  (pvc : PersistentVolumeClaim) :
  value (GetPVC req) w = inl pvc ->
  ~ deletionMarked (ClaimMeta pvc) \/ ~ guarded (ClaimMeta pvc) ->
  value (Reconcile req) w = (emptyResult, None)
  /\ outcome (value (Reconcile req) w) = Success
  /\ calls (Reconcile req) w = [GetClaim req (inl pvc)]
  /\ writes (calls (Reconcile req) w) = []
  /\ cluster (world (Reconcile req) w) = cluster w
  /\ forall n,
       writes (calls (ReconcileTimes n req) w) = []
       /\ cluster (world (ReconcileTimes n req) w) = cluster w
       /\ Forall (fun r => r = (emptyResult, None)
                           \/ exists f, r = (emptyResult, Some (fault_err f)))
            (value (ReconcileTimes n req) w)
       /\ (quiet (faults w) ->
           value (ReconcileTimes n req) w = repeat (emptyResult, None) n).
Proof.
  intros Hv Hc.
  assert (Hs : claims (cluster w) !! req = Some pvc).
  { apply read_inl_stored. rewrite <- Hv. apply value_GetPVC. }
  use_run (Reconcile_noop req w pvc Hv (idle_condition pvc Hc)).
  repeat split; try reflexivity; now apply (ReconcileTimes_idle req pvc n Hc w Hs).
Qed.

Lemma idle_claim_untouched_witness :
  let w := sampleWorld
             (Some (sampleClaim [PVClaimRefCleanupFinalizer] None "v1"))
             (Some (sampleVolume (Some ("c1", "ns1")))) [] in
  calls (Reconcile ("ns1", "c1")) w
  = [GetClaim ("ns1", "c1")
       (inl (sampleClaim [PVClaimRefCleanupFinalizer] None "v1"))].
Proof.
  intros w.
  apply (idle_claim_untouched ("ns1", "c1") w
           (sampleClaim [PVClaimRefCleanupFinalizer] None "v1")).
  - reflexivity.
  - left. discriminate.
Defined.

Lemma read_claim_key (req : string * string) (w : World)
  (pvc : PersistentVolumeClaim) :
  wf_cluster (cluster w) ->
  value (GetPVC req) w = inl pvc ->
  claims (cluster w) !! req = Some pvc /\ claimKey pvc = req.
Proof.
  intros [Hwc _] Hv.
  assert (Hs : claims (cluster w) !! req = Some pvc).
  { apply read_inl_stored. rewrite <- Hv. apply value_GetPVC. }
  split; [exact Hs | now apply Hwc].
Qed.

Lemma read_volume_key (name : string) (w : World) (pv : PersistentVolume) :
  wf_cluster (cluster w) ->
  value (GetPV name) w = inl pv ->
  volumes (cluster w) !! name = Some pv /\ Name (VolumeMeta pv) = name.
Proof.
  intros [_ Hwv] Hv.
  assert (Hs : volumes (cluster w) !! name = Some pv).
  { apply read_inl_stored. rewrite <- Hv. apply value_GetPV. }
  split; [exact Hs | now apply Hwv].
Qed.

(** C7. On the cleanup path, a volume read answered NotFound is not
    reported: the reconciler goes on to write the claim without the
    token, makes no volume write, and returns whatever that claim write
    returned.  Any other error of the volume read is returned at once,
    with no write made and the store as it was. *)
Theorem volume_read_failure (req : string * string) (w : World)
  (pvc : PersistentVolumeClaim) (e : Err) :
  value (GetPVC req) w = inl pvc ->
  deletionMarked (ClaimMeta pvc) ->
  guarded (ClaimMeta pvc) ->
  VolumeName (ClaimSpec pvc) <> "" ->
  value (GetPV (VolumeName (ClaimSpec pvc))) (world (GetPVC req) w) = inr e ->
  (e = ErrNotFound ->
   exists r,
     calls (Reconcile req) w
     = [GetClaim req (inl pvc);
        GetVolume (VolumeName (ClaimSpec pvc)) (inr ErrNotFound);
        UpdateClaim (stripped pvc) r]
     /\ List.filter isVolumeWrite (calls (Reconcile req) w) = []
     /\ ~ guarded (ClaimMeta (stripped pvc))
     /\ value (Reconcile req) w = (emptyResult, r)
     /\ cluster (world (Reconcile req) w)
        = applyCall (cluster w) (UpdateClaim (stripped pvc) r)
     /\ (r = None ->
         outcome (value (Reconcile req) w) = Success
         /\ claims (cluster (world (Reconcile req) w)) !! claimKey pvc
            = Some (stripped pvc)
         /\ volumes (cluster (world (Reconcile req) w)) = volumes (cluster w)))
  /\ (e <> ErrNotFound ->
      value (Reconcile req) w = (emptyResult, Some e)
      /\ outcome (value (Reconcile req) w) = RetryableFailure e
      /\ calls (Reconcile req) w
         = [GetClaim req (inl pvc);
            GetVolume (VolumeName (ClaimSpec pvc)) (inr e)]
      /\ writes (calls (Reconcile req) w) = []
      /\ cluster (world (Reconcile req) w) = cluster w).
Proof.
  intros Hv Hd Hg Hn Hr. split.
  - intros ->.
    use_run (Reconcile_cleanup req w pvc Hv Hd Hg).
    use_run (handle_gone pvc (world (GetPVC req) w) Hn Hr).
    eexists. split; [reflexivity|]. split; [reflexivity|].
    split; [apply stripped_not_guarded|]. split; [reflexivity|].
    split; [reflexivity|].
    intros ->. simpl. rewrite claimKey_stripped, lookup_insert_eq. auto.
  - intros He.
    use_run (Reconcile_cleanup req w pvc Hv Hd Hg).
    use_run (handle_read_failed pvc (world (GetPVC req) w) e Hn Hr He).
    repeat split.
Qed.

Lemma volume_read_failure_witness :
  List.filter isVolumeWrite
    (calls (Reconcile ("ns1", "c1")) (sampleWorld (Some doomedClaim) None []))
  = []
  /\ calls (Reconcile ("ns1", "c1"))
       (sampleWorld (Some doomedClaim) None [None; Some FaultTransient])
     = [GetClaim ("ns1", "c1") (inl doomedClaim);
        GetVolume "v1" (inr ErrTransient)].
Proof.
  split.
  - destruct (volume_read_failure ("ns1", "c1")
                (sampleWorld (Some doomedClaim) None []) doomedClaim
                ErrNotFound) as [Hgone _];
      [reflexivity | reflexivity | apply hasFinalizer_guarded; reflexivity | discriminate | reflexivity |].
    destruct (Hgone eq_refl) as (r & _ & Hnone & _).
    exact Hnone.
  - apply (volume_read_failure ("ns1", "c1")
             (sampleWorld (Some doomedClaim) None [None; Some FaultTransient])
             doomedClaim ErrTransient);
      [reflexivity | reflexivity | apply hasFinalizer_guarded; reflexivity | discriminate | reflexivity
      | discriminate].
Defined.

(** C4. On the cleanup path, when the volume read does not point back
    at the claim by name and namespace (a volume without back-reference
    included), the reconciler makes exactly one write, the update of
    the claim without the token, and no volume write; the volumes in
    the store are as they were, and the claim in the store has lost the
    token once that write is accepted. *)
Theorem mismatched_volume_kept (req : string * string) (w : World)
  (pvc : PersistentVolumeClaim) (pv : PersistentVolume) :
  value (GetPVC req) w = inl pvc ->
  deletionMarked (ClaimMeta pvc) ->
  guarded (ClaimMeta pvc) ->
  VolumeName (ClaimSpec pvc) <> "" ->
  value (GetPV (VolumeName (ClaimSpec pvc))) (world (GetPVC req) w) = inl pv ->
  ~ backRefMatches pv pvc ->
  exists r,
    calls (Reconcile req) w
    = [GetClaim req (inl pvc);
       GetVolume (VolumeName (ClaimSpec pvc)) (inl pv);
       UpdateClaim (stripped pvc) r]
    /\ writes (calls (Reconcile req) w) = [UpdateClaim (stripped pvc) r]
    /\ length (writes (calls (Reconcile req) w)) = 1
    /\ List.filter isVolumeWrite (calls (Reconcile req) w) = []
    /\ ~ guarded (ClaimMeta (stripped pvc))
    /\ value (Reconcile req) w = (emptyResult, r)
    /\ volumes (cluster (world (Reconcile req) w)) = volumes (cluster w)
    /\ (r = None ->
        outcome (value (Reconcile req) w) = Success
        /\ claims (cluster (world (Reconcile req) w)) !! claimKey pvc
           = Some (stripped pvc)).
Proof.
  intros Hv Hd Hg Hn Hr Hm. apply claimRefMatches_false in Hm.
  use_run (Reconcile_cleanup req w pvc Hv Hd Hg).
  use_run (handle_mismatch pvc (world (GetPVC req) w) pv Hn Hr Hm).
  eexists. split; [reflexivity|]. split; [reflexivity|].
  split; [reflexivity|]. split; [reflexivity|].
  split; [apply stripped_not_guarded|]. split; [reflexivity|].
  split.
  - now destruct (value (UpdatePVC (stripped pvc)) _).
  - intros ->. simpl. rewrite claimKey_stripped, lookup_insert_eq. auto.
Qed.

Lemma mismatched_volume_kept_witness :
  let w := sampleWorld (Some doomedClaim)
             (Some (sampleVolume (Some ("other", "ns2")))) [] in
  exists r,
    calls (Reconcile ("ns1", "c1")) w
    = [GetClaim ("ns1", "c1") (inl doomedClaim);
       GetVolume "v1" (inl (sampleVolume (Some ("other", "ns2"))));
       UpdateClaim (stripped doomedClaim) r].
Proof.
  intros w.
  destruct (mismatched_volume_kept ("ns1", "c1") w doomedClaim
              (sampleVolume (Some ("other", "ns2")))) as (r & Hc & _);
    [reflexivity | reflexivity | apply hasFinalizer_guarded; reflexivity | discriminate | reflexivity
    | intros (ref & Href & Hname & _); inversion Href; subst; discriminate |].
  exists r. exact Hc.
Defined.

Lemma read_stored_cases {A} (a : A) (r : A + Err) :
  readResult (Some a) r -> r = inl a \/ exists f, r = inr (fault_err f).
Proof.
  inversion 1 as [b Hb | Hmiss | f].
  - left. congruence.
  - discriminate.
  - right. now exists f.
Qed.

(** C3. With the claim stored, marked for deletion, guarded and bound,
    and the volume it names stored with a back-reference equal to the
    claim's name and namespace, a run that returns no error has made
    exactly two writes, first the volume without its back-reference and
    then the claim without the token, and the store holds both. *)
Theorem matching_volume_released (req : string * string) (w : World)
  (pvc : PersistentVolumeClaim) (pv : PersistentVolume) :
  wf_cluster (cluster w) ->
  claims (cluster w) !! req = Some pvc ->
  deletionMarked (ClaimMeta pvc) ->
  guarded (ClaimMeta pvc) ->
  VolumeName (ClaimSpec pvc) <> "" ->
  volumes (cluster w) !! VolumeName (ClaimSpec pvc) = Some pv ->
  backRefMatches pv pvc ->
  snd (value (Reconcile req) w) = None ->
  value (Reconcile req) w = (emptyResult, None)
  /\ outcome (value (Reconcile req) w) = Success
  /\ calls (Reconcile req) w
     = [GetClaim req (inl pvc);
        GetVolume (VolumeName (ClaimSpec pvc)) (inl pv);
        UpdateVolume (released pv) None;
        UpdateClaim (stripped pvc) None]
  /\ writes (calls (Reconcile req) w)
     = [UpdateVolume (released pv) None; UpdateClaim (stripped pvc) None]
  /\ length (writes (calls (Reconcile req) w)) = 2
  /\ ClaimRef (VolumeSpec (released pv)) = None
  /\ ~ guarded (ClaimMeta (stripped pvc))
  /\ volumes (cluster (world (Reconcile req) w)) !! VolumeName (ClaimSpec pvc)
     = Some (released pv)
  /\ claims (cluster (world (Reconcile req) w)) !! req = Some (stripped pvc).
Proof.
  intros [Hwc Hwv] Hc Hd Hg Hn Hs Hm Hok.
  apply claimRefMatches_spec in Hm.
  pose proof (Hwc _ _ Hc) as Hkey. pose proof (Hwv _ _ Hs) as Hname.
  (* the claim read *)
  pose proof (value_GetPVC req w) as Hread. rewrite Hc in Hread.
  apply read_stored_cases in Hread as [Hv|[f Hv]]; cycle 1.
  { exfalso. revert Hok. use_run (Reconcile_read_failed req w _ Hv).
    now destruct f. }
  revert Hok. use_run (Reconcile_cleanup req w pvc Hv Hd Hg).
  (* the volume read *)
  pose proof (value_GetPV (VolumeName (ClaimSpec pvc)) (world (GetPVC req) w))
    as Hread.
  rewrite cluster_GetPVC, Hs in Hread.
  apply read_stored_cases in Hread as [Hpv|[f Hpv]]; cycle 1.
  { use_run (handle_read_failed pvc (world (GetPVC req) w) (fault_err f) Hn Hpv
               (fault_err_not_NotFound f)).
    discriminate. }
  (* the volume write *)
  destruct (value (UpdatePV (released pv))
              (world (GetPV (VolumeName (ClaimSpec pvc))) (world (GetPVC req) w)))
    as [e|] eqn:Hu.
  { use_run (handle_clear_failed pvc (world (GetPVC req) w) pv e Hn Hpv Hm Hu).
    discriminate. }
  use_run (handle_cleared pvc (world (GetPVC req) w) pv Hn Hpv Hm Hu).
  (* the claim write *)
  rewrite Hu. simpl. intros ->. simpl.
  rewrite claimKey_stripped, Hkey, Hname, !lookup_insert_eq.
  repeat split. apply (stripped_not_guarded pvc).
Qed.

Lemma matching_volume_released_witness :
  let w := sampleWorld (Some doomedClaim)
             (Some (sampleVolume (Some ("c1", "ns1")))) [] in
  writes (calls (Reconcile ("ns1", "c1")) w)
  = [UpdateVolume (released (sampleVolume (Some ("c1", "ns1")))) None;
     UpdateClaim (stripped doomedClaim) None].
Proof.
  intros w.
  apply (matching_volume_released ("ns1", "c1") w doomedClaim
           (sampleVolume (Some ("c1", "ns1")))).
  - apply (bool_decide_unpack _). vm_compute. exact I.
  - reflexivity.
  - reflexivity.
  - apply hasFinalizer_guarded. reflexivity.
  - discriminate.
  - reflexivity.
  - eexists. repeat split.
  - reflexivity.
Defined.

(** ** Every path at once *)

Ltac reconcile_cases req w :=
  destruct (value (GetPVC req) w) as [pvc|e] eqn:Hv;
  [ destruct (negb (IsZero (DeletionTimestamp (ClaimMeta pvc)))
              && hasFinalizer (Finalizers (ClaimMeta pvc))) eqn:Hc;
    [ apply andb_true_iff in Hc as [Hd Hg];
      apply negb_true_iff in Hd; apply hasFinalizer_guarded in Hg;
      use_run (Reconcile_cleanup req w pvc Hv Hd Hg)
    | use_run (Reconcile_noop req w pvc Hv Hc) ]
  | use_run (Reconcile_read_failed req w e Hv) ].

Ltac handle_cases pvc w0 :=
  destruct (String.eqb_spec (VolumeName (ClaimSpec pvc)) "") as [Hvn|Hvn];
  [ use_run (handle_unbound pvc w0 Hvn)
  | destruct (value (GetPV (VolumeName (ClaimSpec pvc))) w0) as [pv|e] eqn:Hpv;
    [ destruct (claimRefMatches pv pvc) eqn:Hm;
      [ destruct (value (UpdatePV (released pv))
                    (world (GetPV (VolumeName (ClaimSpec pvc))) w0))
          as [e|] eqn:Hu;
        [ use_run (handle_clear_failed pvc w0 pv e Hvn Hpv Hm Hu)
        | use_run (handle_cleared pvc w0 pv Hvn Hpv Hm Hu) ]
      | use_run (handle_mismatch pvc w0 pv Hvn Hpv Hm) ]
    | destruct e;
      [ use_run (handle_gone pvc w0 Hvn Hpv)
      | use_run (handle_read_failed pvc w0 ErrConflict Hvn Hpv
                   ltac:(discriminate))
      | use_run (handle_read_failed pvc w0 ErrTransient Hvn Hpv
                   ltac:(discriminate)) ] ] ].

Ltac in_cases H :=
  simpl in H;
  repeat (destruct H as [H|H]; [try discriminate H|]);
  try contradiction.

(** C10. A volume write made by the reconciler carries the volume it
    read, found pointing back at the claim, with the back-reference
    set to nil and nothing else changed: metadata, phase and the other
    fields of the spec are those read, and putting the back-reference
    back yields the volume read. *)
Theorem released_volume_frame (req : string * string) (w : World)
  (written : PersistentVolume) (r : option Err) :
  In (UpdateVolume written r) (calls (Reconcile req) w) ->
  exists pvc pv,
    value (GetPVC req) w = inl pvc
    /\ volumes (cluster w) !! VolumeName (ClaimSpec pvc) = Some pv
    /\ In (GetVolume (VolumeName (ClaimSpec pvc)) (inl pv))
         (calls (Reconcile req) w)
    /\ backRefMatches pv pvc
    /\ ClaimRef (VolumeSpec written) = None
    /\ VolumeMeta written = VolumeMeta pv
    /\ Capacity (VolumeSpec written) = Capacity (VolumeSpec pv)
    /\ StorageClassName (VolumeSpec written) = StorageClassName (VolumeSpec pv)
    /\ PersistentVolumeReclaimPolicy (VolumeSpec written)
       = PersistentVolumeReclaimPolicy (VolumeSpec pv)
    /\ VolumePhase written = VolumePhase pv
    /\ setClaimRef (ClaimRef (VolumeSpec pv)) written = pv.
Proof.
  assert (Hframe : forall pv : PersistentVolume,
             setClaimRef (ClaimRef (VolumeSpec pv)) (released pv) = pv).
  { intros [m [ref c s p] ph]. reflexivity. }
  assert (Hstored : forall pvc pv,
             value (GetPV (VolumeName (ClaimSpec pvc))) (world (GetPVC req) w)
             = inl pv ->
             volumes (cluster w) !! VolumeName (ClaimSpec pvc) = Some pv).
  { intros pvc pv Hpv. apply read_inl_stored.
    rewrite <- Hpv, <- (cluster_GetPVC req w). apply value_GetPV. }
  reconcile_cases req w; [| intros Hin; in_cases Hin ..].
  handle_cases pvc (world (GetPVC req) w); intros Hin; in_cases Hin.
  - injection Hin as <- <-. exists pvc, pv.
    split; [reflexivity|]. split; [now apply Hstored|].
    split; [simpl; auto|]. split; [now apply claimRefMatches_spec|].
    repeat split. apply Hframe.
  - injection Hin as <- <-. exists pvc, pv.
    split; [reflexivity|]. split; [now apply Hstored|].
    split; [simpl; auto|]. split; [now apply claimRefMatches_spec|].
    repeat split. apply Hframe.
Qed.

Lemma released_volume_frame_witness :
  let w := sampleWorld (Some doomedClaim)
             (Some (sampleVolume (Some ("c1", "ns1")))) [] in
  exists pvc pv,
    value (GetPVC ("ns1", "c1")) w = inl pvc
    /\ volumes (cluster w) !! VolumeName (ClaimSpec pvc) = Some pv
    /\ In (GetVolume (VolumeName (ClaimSpec pvc)) (inl pv))
         (calls (Reconcile ("ns1", "c1")) w)
    /\ backRefMatches pv pvc
    /\ ClaimRef (VolumeSpec (released (sampleVolume (Some ("c1", "ns1")))))
       = None.
Proof.
  intros w.
  destruct (released_volume_frame ("ns1", "c1") w
              (released (sampleVolume (Some ("c1", "ns1")))) None)
    as (pvc & pv & H1 & H2 & H3 & H4 & H5 & _).
  - vm_compute. right. right. left. reflexivity.
  - exists pvc, pv. auto.
Defined.

(** ** The order of the two writes *)

Lemma app_eq_cons_cases {A} (x : A) (l pre suf : list A) :
  x :: l = (pre ++ suf)%list ->
  (pre = [] /\ x :: l = suf)
  \/ exists pre', pre = x :: pre' /\ l = (pre' ++ suf)%list.
Proof.
  destruct pre as [|y pre]; simpl; intros H.
  - left. auto.
  - right. injection H as <- ->. eauto.
Qed.

Lemma app_eq_nil_cases {A} (pre suf : list A) :
  [] = (pre ++ suf)%list -> pre = [] /\ [] = suf.
Proof. destruct pre; simpl; [auto | discriminate]. Qed.

(** Every way of cutting a given list of calls in two. *)
Ltac prefixes H :=
  repeat match type of H with
  | _ :: _ = (_ ++ _)%list =>
      apply app_eq_cons_cases in H as [[-> H]|(? & -> & H)]
  | [] = (_ ++ _)%list => apply app_eq_nil_cases in H as [-> H]
  end.

Lemma dangling_unbound (c : Cluster) (pvc : PersistentVolumeClaim) :
  VolumeName (ClaimSpec pvc) = "" -> dangling c pvc = false.
Proof. intros H. unfold dangling. now rewrite H. Qed.

Lemma dangling_while_guarded (c : Cluster) (pvc p : PersistentVolumeClaim) :
  claims c !! claimKey pvc = Some p ->
  hasFinalizer (Finalizers (ClaimMeta p)) = true ->
  dangling c pvc = false.
Proof.
  intros Hs Hg. unfold dangling, tokenAbsent. rewrite Hs, Hg. simpl.
  now rewrite andb_false_r.
Qed.

Lemma dangling_unpointed (c : Cluster) (pvc : PersistentVolumeClaim) :
  pointsAt c pvc = false -> dangling c pvc = false.
Proof. intros H. unfold dangling. rewrite H. apply andb_false_r. Qed.

Ltac ordering settle :=
  intros pre written r suf Heq; prefixes Heq; try discriminate Heq;
  (injection Heq as <- <- <-;
   split; [reflexivity | split; [reflexivity | settle]]).

Ltac volume_failure :=
  intros written e' Hin; in_cases Hin; (injection Hin as <- <-; repeat split).

(** C1. On the cleanup path the claim write is the last call of the
    run and carries the claim without the token; by then the claim is
    unbound, or the volume read answered NotFound, or the volume read
    does not point back at the claim, or the volume write clearing the
    back-reference was accepted.  A rejected volume write ends the run
    with that error and without any claim write.  The store after the
    run is the store before it with the accepted writes applied in
    order, and after no prefix of the run does the bound volume point at
    the claim while the stored claim lacks the token. *)
Theorem token_removed_after_clear (req : string * string) (w : World)
  (pvc : PersistentVolumeClaim) :
  wf_cluster (cluster w) ->
  value (GetPVC req) w = inl pvc ->
  deletionMarked (ClaimMeta pvc) ->
  guarded (ClaimMeta pvc) ->
  (forall pre written r suf,
      calls (Reconcile req) w = (pre ++ UpdateClaim written r :: suf)%list ->
      suf = [] /\ written = stripped pvc /\ clearSettled pvc pre)
  /\ (forall written e,
         In (UpdateVolume written (Some e)) (calls (Reconcile req) w) ->
         value (Reconcile req) w = (emptyResult, Some e)
         /\ outcome (value (Reconcile req) w) = RetryableFailure e
         /\ List.filter isClaimWrite (calls (Reconcile req) w) = [])
  /\ cluster (world (Reconcile req) w)
     = replay (cluster w) (calls (Reconcile req) w)
  /\ (forall pre suf,
         calls (Reconcile req) w = (pre ++ suf)%list ->
         dangling (replay (cluster w) pre) pvc = false).
Proof.
  intros Hwf Hv Hd Hg.
  destruct (read_claim_key req w pvc Hwf Hv) as [Hs Hkey].
  rewrite <- Hkey in Hs.
  assert (Hgf := proj2 (hasFinalizer_guarded _) Hg).
  assert (Hsafe : forall c, claims c = claims (cluster w) -> dangling c pvc = false).
  { intros c Hc. apply (dangling_while_guarded c pvc pvc); [|exact Hgf].
    now rewrite Hc. }
  assert (Hname : forall pv,
             value (GetPV (VolumeName (ClaimSpec pvc))) (world (GetPVC req) w)
             = inl pv ->
             volumes (cluster w) !! VolumeName (ClaimSpec pvc) = Some pv
             /\ Name (VolumeMeta pv) = VolumeName (ClaimSpec pvc)).
  { intros pv Hpv. rewrite <- (cluster_GetPVC req w).
    apply (read_volume_key _ (world (GetPVC req) w)); [|exact Hpv].
    now rewrite cluster_GetPVC. }
  use_run (Reconcile_cleanup req w pvc Hv Hd Hg).
  handle_cases pvc (world (GetPVC req) w);
    (split; [|split; [|split; [rewrite ?Hu; simpl; reflexivity|]]]).
  - (* unbound *)
    ordering ltac:(left; exact Hvn).
  - volume_failure.
  - intros pre suf Heq. now apply dangling_unbound.
  - (* the volume write is rejected *)
    ordering idtac.
  - volume_failure.
  - intros pre suf Heq; prefixes Heq; simpl; now apply Hsafe.
  - (* the volume write is accepted *)
    ordering ltac:(right; right; right; exists pv; simpl; auto).
  - volume_failure.
  - destruct (Hname pv eq_refl) as [Hvs Hnm].
    intros pre suf Heq; prefixes Heq; simpl; try now apply Hsafe.
    destruct (value (UpdatePVC (stripped pvc)) _); [now apply Hsafe|].
    apply dangling_unpointed. unfold pointsAt. simpl.
    rewrite Hnm, lookup_insert_eq. reflexivity.
  - (* the volume points elsewhere *)
    ordering ltac:(right; right; left; exists pv;
                   split; [simpl; auto | now apply claimRefMatches_false]).
  - volume_failure.
  - destruct (Hname pv eq_refl) as [Hvs Hnm].
    intros pre suf Heq; prefixes Heq; simpl; try now apply Hsafe.
    destruct (value (UpdatePVC (stripped pvc)) _); [now apply Hsafe|].
    apply dangling_unpointed. unfold pointsAt. simpl.
    rewrite Hvs. exact Hm.
  - (* the volume is gone *)
    ordering ltac:(right; left; simpl; auto).
  - volume_failure.
  - assert (Habs : volumes (cluster w) !! VolumeName (ClaimSpec pvc) = None).
    { rewrite <- (cluster_GetPVC req w). apply read_NotFound_absent.
      rewrite <- Hpv. apply value_GetPV. }
    intros pre suf Heq; prefixes Heq; simpl; try now apply Hsafe.
    destruct (value (UpdatePVC (stripped pvc)) _); [now apply Hsafe|].
    apply dangling_unpointed. unfold pointsAt. simpl.
    rewrite Habs. reflexivity.
  - (* the volume read fails *)
    ordering idtac.
  - volume_failure.
  - intros pre suf Heq; prefixes Heq; simpl; now apply Hsafe.
  - ordering idtac.
  - volume_failure.
  - intros pre suf Heq; prefixes Heq; simpl; now apply Hsafe.
Qed.

Lemma token_removed_after_clear_witness :
  let w := sampleWorld (Some doomedClaim)
             (Some (sampleVolume (Some ("c1", "ns1"))))
             [None; None; Some FaultConflict] in
  value (Reconcile ("ns1", "c1")) w = (emptyResult, Some ErrConflict)
  /\ outcome (value (Reconcile ("ns1", "c1")) w) = RetryableFailure ErrConflict
  /\ List.filter isClaimWrite (calls (Reconcile ("ns1", "c1")) w) = [].
Proof.
  intros w.
  destruct (token_removed_after_clear ("ns1", "c1") w doomedClaim)
    as (_ & Hfail & _).
  - apply (bool_decide_unpack _). vm_compute. exact I.
  - reflexivity.
  - reflexivity.
  - apply hasFinalizer_guarded. reflexivity.
  - apply (Hfail (released (sampleVolume (Some ("c1", "ns1")))) ErrConflict).
    vm_compute. right. right. left. reflexivity.
Defined.

(** ** The finalizer list written back *)

Lemma claim_writes_stripped (req : string * string) (w : World)
  (written : PersistentVolumeClaim) (r : option Err) :
  In (UpdateClaim written r) (calls (Reconcile req) w) ->
  exists pvc, value (GetPVC req) w = inl pvc /\ written = stripped pvc.
Proof.
  reconcile_cases req w; [| intros Hin; in_cases Hin ..].
  handle_cases pvc (world (GetPVC req) w); intros Hin; in_cases Hin;
    injection Hin as <- <-; exists pvc; auto.
Qed.

(** C9. The finalizer list the reconciler writes back is the list it
    read with every occurrence of the guard token filtered out: the
    token is gone, every other string is kept as often as it occurred
    and in the same order, and nothing is added.  The [removeFinalizer]
    method writes the claim it was given with that list and no other
    field changed, and every claim write of a run carries exactly
    that. *)
Theorem removeFinalizer_only_drops_token (fs : list string) :
  (removeFinalizer fs = List.filter keeps fs
   /\ ~ In PVClaimRefCleanupFinalizer (removeFinalizer fs)
   /\ hasFinalizer (removeFinalizer fs) = false
   /\ (forall s, s <> PVClaimRefCleanupFinalizer ->
                 count_occ String.string_dec (removeFinalizer fs) s
                 = count_occ String.string_dec fs s)
   /\ (forall s, In s (removeFinalizer fs) -> In s fs)
   /\ sublist (removeFinalizer fs) fs)
  /\ (forall pvc w,
         Finalizers (ClaimMeta pvc) = fs ->
         exists r,
           calls (PVCReconciler_removeFinalizer pvc) w
           = [UpdateClaim (setFinalizers (removeFinalizer fs) pvc) r])
  /\ (forall req w pvc written r,
         value (GetPVC req) w = inl pvc ->
         Finalizers (ClaimMeta pvc) = fs ->
         In (UpdateClaim written r) (calls (Reconcile req) w) ->
         written = setFinalizers (removeFinalizer fs) pvc
         /\ Finalizers (ClaimMeta written) = removeFinalizer fs).
Proof.
  split; [|split].
  - split; [apply removeFinalizer_filter|].
    split; [rewrite removeFinalizer_In; tauto|].
    split; [apply hasFinalizer_removeFinalizer|].
    split; [intros s Hs; now apply removeFinalizer_count|].
    split; [intros s Hs; now apply removeFinalizer_In in Hs|].
    apply removeFinalizer_sublist.
  - intros pvc w <-. eexists. apply calls_PVCReconciler_removeFinalizer.
  - intros req w pvc written r Hv <- Hin.
    destruct (claim_writes_stripped req w written r Hin) as (p & Hp & ->).
    assert (p = pvc) by congruence. subst p. split; reflexivity.
Qed.

(** * Further properties of the code *)

(** ** The finalizer helpers as list functions *)

(** X1. Filtering twice is filtering once, and [removeFinalizer] leaves
    a list as it is exactly when [hasFinalizer] rejects it. *)
Theorem removeFinalizer_idempotent (l : list string) :
  removeFinalizer (removeFinalizer l) = removeFinalizer l
  /\ (removeFinalizer l = l <-> hasFinalizer l = false).
Proof.
  assert (Hfix : forall k, hasFinalizer k = false -> removeFinalizer k = k).
  { intros k Hk. apply removeFinalizer_fixed. intros Hin.
    apply slices_Contains_In in Hin. unfold hasFinalizer in Hk. congruence. }
  split.
  - apply Hfix, hasFinalizer_removeFinalizer.
  - split.
    + intros <-. apply hasFinalizer_removeFinalizer.
    + apply Hfix.
Qed.

(** X2. The list [removeFinalizer] returns is shorter than its input by
    the number of occurrences of the token. *)
Theorem removeFinalizer_length (l : list string) :
  length (removeFinalizer l)
  + count_occ String.string_dec l PVClaimRefCleanupFinalizer
  = length l.
Proof.
  rewrite removeFinalizer_filter.
  induction l as [|x l IH]; simpl; [reflexivity|].
  destruct (keeps x) eqn:Hk; simpl.
  - apply keeps_true in Hk.
    destruct (String.string_dec x PVClaimRefCleanupFinalizer); [contradiction|].
    now rewrite IH.
  - destruct (String.string_dec x PVClaimRefCleanupFinalizer) as [_|Hne].
    + rewrite Nat.add_succ_r. now rewrite IH.
    + apply keeps_true in Hne. congruence.
Qed.

Lemma slices_Contains_app (s t : list string) (v : string) :
  slices_Contains (s ++ t) v = slices_Contains s v || slices_Contains t v.
Proof.
  induction s as [|x s IH]; simpl; [reflexivity|].
  now destruct (String.eqb v x).
Qed.

(** X3. Both helpers work element by element: on a concatenation,
    [hasFinalizer] is the disjunction and [removeFinalizer] the
    concatenation of the results on the two parts. *)
Theorem finalizer_helpers_app (a b : list string) :
  hasFinalizer (a ++ b) = hasFinalizer a || hasFinalizer b
  /\ removeFinalizer (a ++ b) = (removeFinalizer a ++ removeFinalizer b)%list.
Proof.
  split.
  - apply slices_Contains_app.
  - rewrite !removeFinalizer_filter. apply List.filter_app.
Qed.

(** ** The event filter on the other notification kinds *)

(** X4. A create or a generic notification is admitted exactly when its
    object is a claim with a non-empty volume name that carries the
    token; a delete notification is never admitted. *)
Theorem filter_create_generic_delete (o : Object) :
  (admits combined (CreateEvent o) = true
   <-> exists pvc, o = ObjClaim pvc
                   /\ VolumeName (ClaimSpec pvc) <> ""
                   /\ guarded (ClaimMeta pvc))
  /\ admits combined (GenericEvent o) = admits combined (CreateEvent o)
  /\ admits combined (DeleteEvent o) = false.
Proof.
  split; [|split].
  - simpl. destruct o as [pvc|pv|m]; simpl.
    + rewrite andb_true_iff, negb_true_iff, String.eqb_neq.
      change (GetFinalizers (ObjClaim pvc)) with (Finalizers (ClaimMeta pvc)).
      rewrite hasFinalizer_guarded. split.
      * intros [Hn Hg]. exists pvc. auto.
      * intros (p & Hp & Hn & Hg). inversion Hp; subst. auto.
    + split; [discriminate | intros (p & Hp & _); discriminate].
    + split; [discriminate | intros (p & Hp & _); discriminate].
  - reflexivity.
  - simpl. apply andb_false_r.
Qed.

(** X5. The update the reconciler's own claim write causes, from the
    guarded claim to the same claim without the token, passes the
    filter whenever the claim is bound, whatever its deletion
    timestamp. *)
Theorem own_claim_write_admitted (pvc : PersistentVolumeClaim) :
  VolumeName (ClaimSpec pvc) <> "" ->
  guarded (ClaimMeta pvc) ->
  admits combined (UpdateEvent (ObjClaim pvc) (ObjClaim (stripped pvc))) = true.
Proof.
  intros Hn Hg. apply hasFinalizer_guarded in Hg. simpl.
  rewrite (handle_enter _ Hn). simpl.
  change (GetFinalizers (ObjClaim pvc)) with (Finalizers (ClaimMeta pvc)).
  change (GetFinalizers (ObjClaim (stripped pvc)))
    with (removeFinalizer (Finalizers (ClaimMeta pvc))).
  now rewrite Hg, hasFinalizer_removeFinalizer.
Qed.

Lemma own_claim_write_admitted_witness :
  admits combined
    (UpdateEvent (ObjClaim doomedClaim) (ObjClaim (stripped doomedClaim)))
  = true.
Proof.
  apply own_claim_write_admitted.
  - discriminate.
  - apply hasFinalizer_guarded. reflexivity.
Defined.

(** ** Every run of the reconciler *)

Ltac all_paths req w :=
  reconcile_cases req w;
  [ match goal with
    | H : value (GetPVC req) w = inl ?p |- _ =>
        handle_cases p (world (GetPVC req) w)
    end
  | .. ].

(** The store a run leaves is the store it found with its accepted
    writes applied in order. *)
Lemma Reconcile_replays (req : string * string) (w : World) :
  cluster (world (Reconcile req) w)
  = replay (cluster w) (calls (Reconcile req) w).
Proof. all_paths req w; rewrite ?Hu; reflexivity. Qed.

(** X6. Whatever the store holds and whatever fails, the result the
    reconciler returns is the empty one: it never asks for a requeue,
    so the host sees either success or an error to retry. *)
Theorem Reconcile_never_requeues (req : string * string) (w : World) :
  fst (value (Reconcile req) w) = emptyResult
  /\ (outcome (value (Reconcile req) w) = Success
      <-> snd (value (Reconcile req) w) = None)
  /\ (forall e, outcome (value (Reconcile req) w) = RetryableFailure e
                <-> snd (value (Reconcile req) w) = Some e).
Proof.
  assert (Hout : forall r : option Err,
             (outcome (emptyResult, r) = Success <-> r = None)
             /\ (forall e, outcome (emptyResult, r) = RetryableFailure e
                           <-> r = Some e)).
  { intros [e0|]; simpl; split; try intros e; split; congruence. }
  all_paths req w; (split; [reflexivity | apply Hout]).
Qed.

(** X7. A run makes at most four calls, the first of them the read of
    the requested claim; at most one of them is a volume write and at
    most one a claim write, and no read follows a write. *)
Theorem Reconcile_call_bounds (req : string * string) (w : World) :
  let cs := calls (Reconcile req) w in
  length cs <= 4
  /\ head cs = Some (GetClaim req (value (GetPVC req) w))
  /\ length (List.filter isVolumeWrite cs) <= 1
  /\ length (List.filter isClaimWrite cs) <= 1
  /\ cs = (List.filter isRead cs ++ List.filter isWrite cs)%list
  /\ length (List.filter isRead cs) <= 2.
Proof.
  all_paths req w; simpl; repeat split; lia.
Qed.


(** X9. A run stops at its first failed call, a read answered NotFound
    apart: any other failed call is the last call of the run and its
    error is the error the run returns. *)
Theorem Reconcile_fails_fast (req : string * string) (w : World)
  (before : list Call) (c : Call) (after : list Call) (err : Err) :
  calls (Reconcile req) w = (before ++ c :: after)%list ->
  callError c = Some err ->
  (isRead c = true /\ err = ErrNotFound)
  \/ (after = [] /\ snd (value (Reconcile req) w) = Some err).
Proof.
  revert before c after err.
  all_paths req w; intros before c after err Heq Herr;
    prefixes Heq; try discriminate Heq; injection Heq as <- <-;
    simpl in Herr; try discriminate Herr;
    try (injection Herr as <-);
    try (right; split; [reflexivity | first [exact Herr | reflexivity]]);
    try (left; split; reflexivity).
  match goal with
  | |- context [IgnoreNotFound (Some ?x)] =>
      destruct x; [left | right | right]; split; reflexivity
  end.
Qed.

Lemma Reconcile_fails_fast_witness :
  let w := sampleWorld (Some doomedClaim)
             (Some (sampleVolume (Some ("c1", "ns1"))))
             [None; Some FaultTransient] in
  (isRead (GetVolume "v1" (inr ErrTransient)) = true
   /\ ErrTransient = ErrNotFound)
  \/ ([] = @nil Call
      /\ snd (value (Reconcile ("ns1", "c1")) w) = Some ErrTransient).
Proof.
  intros w.
  apply (Reconcile_fails_fast ("ns1", "c1") w
           [GetClaim ("ns1", "c1") (inl doomedClaim)]
           (GetVolume "v1" (inr ErrTransient)) [] ErrTransient);
    reflexivity.
Defined.

(** X10. An error the run returns is the error of its last call, and it
    is never the NotFound of a read. *)
Theorem Reconcile_error_provenance (req : string * string) (w : World)
  (err : Err) :
  snd (value (Reconcile req) w) = Some err ->
  exists c, last (calls (Reconcile req) w) = Some c
            /\ callError c = Some err
            /\ (isWrite c = true \/ err <> ErrNotFound).
Proof.
  revert err. all_paths req w; simpl; intros err Herr;
    try discriminate Herr;
    try (eexists; split; [reflexivity|];
         split; [first [exact Herr | reflexivity]|]; try (left; reflexivity)).
  - right. injection Herr as <-. discriminate.
  - right. injection Herr as <-. discriminate.
  - destruct e; [discriminate Herr | ..];
      (eexists; split; [reflexivity|]; split; [exact Herr|]; right;
       injection Herr as <-; discriminate).
Qed.

Lemma Reconcile_error_provenance_witness :
  let w := sampleWorld (Some doomedClaim)
             (Some (sampleVolume (Some ("c1", "ns1"))))
             [None; None; None; Some FaultConflict] in
  exists c, last (calls (Reconcile ("ns1", "c1")) w) = Some c
            /\ callError c = Some ErrConflict
            /\ (isWrite c = true \/ ErrConflict <> ErrNotFound).
Proof.
  intros w. apply (Reconcile_error_provenance ("ns1", "c1") w ErrConflict).
  reflexivity.
Defined.

(** X11. A run that returns an error has left every stored claim as it
    was: the token is still on the claim, and any claim write the run
    attempted was rejected with that error. *)
Theorem failed_run_keeps_claims (req : string * string) (w : World)
  (err : Err) :
  snd (value (Reconcile req) w) = Some err ->
  claims (cluster (world (Reconcile req) w)) = claims (cluster w)
  /\ forall written r,
       In (UpdateClaim written r) (calls (Reconcile req) w) -> r = Some err.
Proof.
  revert err. all_paths req w; simpl; intros err Herr;
    try discriminate Herr; rewrite ?Hu, ?Herr;
    (split; [reflexivity | intros written r Hin; in_cases Hin;
                           try (injection Hin as <- <-; reflexivity)]).
Qed.

Lemma failed_run_keeps_claims_witness :
  let w := sampleWorld (Some doomedClaim)
             (Some (sampleVolume (Some ("c1", "ns1"))))
             [None; None; None; Some FaultConflict] in
  claims (cluster (world (Reconcile ("ns1", "c1")) w)) = claims (cluster w).
Proof.
  intros w.
  apply (failed_run_keeps_claims ("ns1", "c1") w ErrConflict).
  reflexivity.
Defined.

(** X12. A run changes no claim other than the requested one and no
    volume it did not read. *)
Theorem Reconcile_frame (req : string * string) (w : World) :
  wf_cluster (cluster w) ->
  (forall k, k <> req ->
             claims (cluster (world (Reconcile req) w)) !! k
             = claims (cluster w) !! k)
  /\ (forall n, (forall r, ~ In (GetVolume n r) (calls (Reconcile req) w)) ->
                volumes (cluster (world (Reconcile req) w)) !! n
                = volumes (cluster w) !! n).
Proof.
  intros Hwf.
  assert (Hkey : forall p, value (GetPVC req) w = inl p -> claimKey p = req).
  { intros p Hp. apply (read_claim_key req w p Hwf Hp). }
  assert (Hname : forall p v,
             value (GetPV (VolumeName (ClaimSpec p))) (world (GetPVC req) w)
             = inl v ->
             Name (VolumeMeta v) = VolumeName (ClaimSpec p)).
  { intros p v Hp.
    apply (read_volume_key _ (world (GetPVC req) w)); [|exact Hp].
    now rewrite cluster_GetPVC. }
  all_paths req w; (split; [intros k Hk | intros n Hn]); rewrite ?Hu;
    try reflexivity.
  all: try (destruct (value (UpdatePVC _) _); simpl; try reflexivity).
  all: try (rewrite lookup_insert_ne; [reflexivity|];
            rewrite ?claimKey_stripped, ?(Hkey _ eq_refl); congruence).
  all: rewrite lookup_insert_ne; [reflexivity|];
    rewrite (Hname _ _ Hpv); intros <-; apply (Hn (inl pv)); simpl; auto.
Qed.

Lemma Reconcile_frame_witness :
  let w := sampleWorld (Some doomedClaim)
             (Some (sampleVolume (Some ("c1", "ns1")))) [] in
  claims (cluster (world (Reconcile ("ns1", "c1")) w)) !! ("ns1", "c2")
  = claims (cluster w) !! ("ns1", "c2").
Proof.
  intros w.
  apply (Reconcile_frame ("ns1", "c1") w).
  - apply (bool_decide_unpack _). vm_compute. exact I.
  - discriminate.
Defined.

(** ** The shape of the store *)

Lemma sameShape_refl (c : Cluster) : sameShape c c.
Proof. split; [reflexivity | split; [reflexivity | auto]]. Qed.

Lemma sameShape_trans (c1 c2 c3 : Cluster) :
  sameShape c1 c2 -> sameShape c2 c3 -> sameShape c1 c3.
Proof.
  intros (Hc & Hv & Hw) (Hc' & Hv' & Hw'). split; [|split].
  - now rewrite Hc'.
  - now rewrite Hv'.
  - auto.
Qed.

Lemma dom_insert_present `{Countable K} {A} (m : gmap K A) (k : K) (x y : A) :
  m !! k = Some x -> dom (<[k := y]> m) = dom m.
Proof.
  intros Hk. rewrite dom_insert_L.
  apply subseteq_union_1_L, singleton_subseteq_l, elem_of_dom. eauto.
Qed.

Lemma preserves_ret {A} (a : A) : preserves sameShape (ret a).
Proof. intros w. apply sameShape_refl. Qed.

Lemma preserves_bind {A B} (m : M A) (k : A -> M B) :
  preserves sameShape m ->
  (forall a, preserves sameShape (k a)) ->
  preserves sameShape (bind m k).
Proof.
  intros Hm Hk w. rewrite world_bind.
  eapply sameShape_trans; [apply Hm | apply Hk].
Qed.

Lemma preserves_GetPVC key : preserves sameShape (GetPVC key).
Proof. intros w. rewrite cluster_GetPVC. apply sameShape_refl. Qed.

Lemma preserves_GetPV name : preserves sameShape (GetPV name).
Proof. intros w. rewrite cluster_GetPV. apply sameShape_refl. Qed.

Lemma preserves_UpdatePV pv : preserves sameShape (UpdatePV pv).
Proof.
  intros w. rewrite cluster_UpdatePV.
  pose proof (value_UpdatePV pv w) as Hr.
  destruct (value (UpdatePV pv) w) as [e|]; simpl; [apply sameShape_refl|].
  inversion Hr as [old Hold| |]. split; [|split]; simpl.
  - reflexivity.
  - now apply (dom_insert_present _ _ old).
  - intros [Hc Hvs]. split; [exact Hc|]. simpl.
    now apply map_Forall_insert_2.
Qed.

Lemma preserves_UpdatePVC pvc : preserves sameShape (UpdatePVC pvc).
Proof.
  intros w. rewrite cluster_UpdatePVC.
  pose proof (value_UpdatePVC pvc w) as Hr.
  destruct (value (UpdatePVC pvc) w) as [e|]; simpl; [apply sameShape_refl|].
  inversion Hr as [old Hold| |]. split; [|split]; simpl.
  - now apply (dom_insert_present _ _ old).
  - reflexivity.
  - intros [Hc Hvs]. split; [|exact Hvs]. simpl.
    now apply map_Forall_insert_2.
Qed.

Lemma preserves_removeFinalizer pvc :
  preserves sameShape (PVCReconciler_removeFinalizer pvc).
Proof.
  unfold PVCReconciler_removeFinalizer.
  apply preserves_bind; [apply preserves_UpdatePVC|].
  intros [e|]; apply preserves_ret.
Qed.

Lemma preserves_handlePVCDeletion pvc :
  preserves sameShape (handlePVCDeletion pvc).
Proof.
  unfold handlePVCDeletion.
  destruct (negb (VolumeName (ClaimSpec pvc) =? ""));
    [|apply preserves_removeFinalizer].
  apply preserves_bind; [apply preserves_GetPV|].
  intros [pv|e].
  - destruct (claimRefMatches pv pvc); [|apply preserves_removeFinalizer].
    apply preserves_bind; [apply preserves_UpdatePV|].
    intros [e|]; [apply preserves_ret | apply preserves_removeFinalizer].
  - destruct (IgnoreNotFound (Some e));
      [apply preserves_ret | apply preserves_removeFinalizer].
Qed.


(** ** Runs without injected faults, and runs after a failure *)

Lemma value_GetPV_quiet (name : string) (w : World) :
  quiet (faults w) ->
  value (GetPV name) w
  = match volumes (cluster w) !! name with
    | Some pv => inl pv
    | None => inr ErrNotFound
    end.
Proof.
  unfold value, GetPV, quiet. destruct (faults w) as [|f fs]; simpl.
  - reflexivity.
  - intros H. inversion H; subst. reflexivity.
Qed.

Lemma value_UpdatePV_quiet (pv old : PersistentVolume) (w : World) :
  quiet (faults w) ->
  volumes (cluster w) !! Name (VolumeMeta pv) = Some old ->
  value (UpdatePV pv) w = None.
Proof.
  unfold value, UpdatePV, quiet. intros Hq Hs.
  destruct (faults w) as [|f fs]; simpl.
  - now rewrite Hs.
  - inversion Hq; subst. simpl. now rewrite Hs.
Qed.

Lemma value_UpdatePVC_quiet (pvc old : PersistentVolumeClaim) (w : World) :
  quiet (faults w) ->
  claims (cluster w) !! claimKey pvc = Some old ->
  value (UpdatePVC pvc) w = None.
Proof.
  unfold value, UpdatePVC, quiet. intros Hq Hs.
  destruct (faults w) as [|f fs]; simpl.
  - now rewrite Hs.
  - inversion Hq; subst. simpl. now rewrite Hs.
Qed.

Ltac quiet_world Hq :=
  autorewrite with run; repeat apply quiet_tail; exact Hq.

Ltac claim_write_accepted Hq Hs :=
  match goal with
  | |- context [value (UpdatePVC (stripped ?p)) ?W] =>
      let Hup := fresh "Hup" in
      assert (Hup : value (UpdatePVC (stripped p)) W = None);
      [ apply (value_UpdatePVC_quiet _ p);
        [ quiet_world Hq
        | autorewrite with run;
          try match goal with
              | H : value (UpdatePV _) _ = _ |- _ => rewrite H
              end;
          exact Hs ]
      | rewrite Hup ]
  end.



Lemma accepted_claim_write_stored (req : string * string) (w : World)
  (written : PersistentVolumeClaim) :
  In (UpdateClaim written None) (calls (Reconcile req) w) ->
  claims (cluster (world (Reconcile req) w)) !! claimKey written = Some written.
Proof.
  all_paths req w; rewrite ?Hu; intros Hin; in_cases Hin;
    injection Hin as <- Hr; rewrite Hr; simpl; apply lookup_insert_eq.
Qed.

(** X15. Once a run has had its claim write accepted, any later run on
    the store it left writes nothing and leaves the store as it is,
    whatever faults are injected; without injected faults it returns
    success. *)
Theorem rerun_after_removal_is_idle (req : string * string) (w w2 : World)
  (written : PersistentVolumeClaim) :
  wf_cluster (cluster w) ->
  In (UpdateClaim written None) (calls (Reconcile req) w) ->
  cluster w2 = cluster (world (Reconcile req) w) ->
  writes (calls (Reconcile req) w2) = []
  /\ cluster (world (Reconcile req) w2) = cluster w2
  /\ (quiet (faults w2) -> value (Reconcile req) w2 = (emptyResult, None)).
Proof.
  intros Hwf Hin Hc2.
  pose proof (accepted_claim_write_stored req w written Hin) as Hstored.
  destruct (claim_writes_stripped req w written None Hin) as (p & Hp & ->).
  assert (Hkey : claimKey p = req) by apply (read_claim_key req w p Hwf Hp).
  rewrite claimKey_stripped, Hkey, <- Hc2 in Hstored.
  destruct (Reconcile_idle req w2 (stripped p) Hstored
              (or_intror (stripped_not_guarded p)))
    as (Hw & Hcl & _ & _ & Hq).
  auto.
Qed.

Lemma rerun_after_removal_is_idle_witness :
  let w := sampleWorld (Some doomedClaim)
             (Some (sampleVolume (Some ("c1", "ns1")))) [] in
  writes (calls (Reconcile ("ns1", "c1")) (world (Reconcile ("ns1", "c1")) w))
  = [].
Proof.
  intros w.
  apply (rerun_after_removal_is_idle ("ns1", "c1") w
           (world (Reconcile ("ns1", "c1")) w) (stripped doomedClaim)).
  - apply (bool_decide_unpack _). vm_compute. exact I.
  - vm_compute. right. right. right. left. reflexivity.
  - reflexivity.
Defined.



(** ** The filter and the cleanup path together *)

(** X17. Every notification other than a delete about a claim that is
    bound, marked for deletion and guarded is admitted: a creation, a
    resync, and an update from any old object. *)
Theorem filter_admits_cleanup_states (pvc : PersistentVolumeClaim)
  (objectOld : Object) :
  VolumeName (ClaimSpec pvc) <> "" ->
  deletionMarked (ClaimMeta pvc) ->
  guarded (ClaimMeta pvc) ->
  admits combined (CreateEvent (ObjClaim pvc)) = true
  /\ admits combined (GenericEvent (ObjClaim pvc)) = true
  /\ admits combined (UpdateEvent objectOld (ObjClaim pvc)) = true.
Proof.
  intros Hn Hd Hg. apply hasFinalizer_guarded in Hg.
  unfold deletionMarked in Hd. simpl.
  rewrite (handle_enter _ Hn). simpl.
  unfold GetDeletionTimestamp.
  change (GetFinalizers (ObjClaim pvc)) with (Finalizers (ClaimMeta pvc)).
  change (GetObjectMeta (ObjClaim pvc)) with (ClaimMeta pvc).
  rewrite Hg, Hd. simpl. rewrite orb_true_r. auto.
Qed.

Lemma filter_admits_cleanup_states_witness :
  admits combined (UpdateEvent (ObjClaim doomedClaim) (ObjClaim doomedClaim))
  = true.
Proof.
  apply (filter_admits_cleanup_states doomedClaim (ObjClaim doomedClaim)).
  - discriminate.
  - reflexivity.
  - apply hasFinalizer_guarded. reflexivity.
Defined.

(** X18. For a claim read marked for deletion and guarded whose volume
    name is empty, the run makes no volume call: after the read its
    only call is the write of the claim without the token, and it
    returns what that write returned.  No notification about such a
    claim passes the filter. *)
Theorem unbound_cleanup (req : string * string) (w : World)
  (claim : PersistentVolumeClaim) :
  value (GetPVC req) w = inl claim ->
  deletionMarked (ClaimMeta claim) ->
  guarded (ClaimMeta claim) ->
  VolumeName (ClaimSpec claim) = "" ->
  (exists r,
      calls (Reconcile req) w
      = [GetClaim req (inl claim); UpdateClaim (stripped claim) r]
      /\ value (Reconcile req) w = (emptyResult, r)
      /\ volumes (cluster (world (Reconcile req) w)) = volumes (cluster w)
      /\ (r = None ->
          claims (cluster (world (Reconcile req) w)) !! claimKey claim
          = Some (stripped claim)))
  /\ (forall n, subject n = ObjClaim claim -> admits combined n = false).
Proof.
  intros Hv Hd Hg Hn. split.
  - use_run (Reconcile_cleanup req w claim Hv Hd Hg).
    use_run (handle_unbound claim (world (GetPVC req) w) Hn).
    eexists. split; [reflexivity|]. split; [reflexivity|]. split.
    + now destruct (value (UpdatePVC (stripped claim)) _).
    + intros ->. simpl. now rewrite claimKey_stripped, lookup_insert_eq.
  - intros [o|o o'|o|o] Hsub; simpl in Hsub; subst; simpl;
      rewrite Hn; reflexivity.
Qed.

Lemma unbound_cleanup_witness :
  let claim := sampleClaim [PVClaimRefCleanupFinalizer] (Some 9%Z) "" in
  let w := sampleWorld (Some claim) None [] in
  exists r,
    calls (Reconcile ("ns1", "c1")) w
    = [GetClaim ("ns1", "c1") (inl claim); UpdateClaim (stripped claim) r].
Proof.
  intros claim w.
  destruct (unbound_cleanup ("ns1", "c1") w claim)
    as [(r & Hcalls & _) _].
  - reflexivity.
  - reflexivity.
  - apply hasFinalizer_guarded. reflexivity.
  - reflexivity.
  - exists r. exact Hcalls.
Defined.
